(** * Macros-NX: the macro builder (macroBuilder.py)

    A shallow embedding of the macro playback loop, the socket command
    sender and the macro library operations of [MacroBuilderApp], with the
    Python string operations they rely on.

    The interpreter is CPython 3.11 on Linux.  Text is [string]: a
    character is a code point below 256.  Integers are [Z], list indices
    are [nat].  The Tk widgets are not modelled: what a
    callback reads from a widget is an argument of its function here, and
    what it shows in a dialog is part of its result. *)

From Stdlib Require Import ZArith NArith Ascii String List Bool Lia.
From stdpp Require Import base option list gmap strings.

Local Open Scope string_scope.

(** ** Python string and integer operations *)

Module Py.

Definition ord (c : ascii) : N := N_of_ascii c.
Definition chr (n : N) : ascii := ascii_of_N n.

Definition in_range (lo hi : N) (c : ascii) : bool :=
  ((lo <=? ord c) && (ord c <=? hi))%N.

(** [s.startswith(p)] *)
Definition startswith (s p : string) : bool := String.prefix p s.

(** [s[n:]] *)
Fixpoint slice_from (n : nat) (s : string) : string :=
  match n, s with
  | O, _ => s
  | S n', String _ r => slice_from n' r
  | S _, EmptyString => EmptyString
  end.

(** [c.upper()] for one character.  The capitals of U+00B5 and U+00FF lie
    beyond code point 255; these two characters are left as they are, and,
    like their capitals, they are not ASCII. *)
Definition upper_char (c : ascii) : string :=
  if in_range 97 122 c then String (chr (ord c - 32)) EmptyString
  else if (ord c =? 223)%N then "SS"
  else if in_range 224 254 c && negb (ord c =? 247)%N
       then String (chr (ord c - 32)) EmptyString
  else String c EmptyString.

(** [s.upper()] *)
Fixpoint upper (s : string) : string :=
  match s with
  | EmptyString => EmptyString
  | String c r => upper_char c ++ upper r
  end.

(** [c.isspace()]: the characters removed by [str.strip()]. *)
Definition isspace (c : ascii) : bool :=
  in_range 9 13 c || in_range 28 32 c || (ord c =? 133)%N || (ord c =? 160)%N.

Fixpoint lstrip (sp : ascii -> bool) (s : string) : string :=
  match s with
  | EmptyString => EmptyString
  | String c r => if sp c then lstrip sp r else s
  end.

Fixpoint rstrip (sp : ascii -> bool) (s : string) : string :=
  match s with
  | EmptyString => EmptyString
  | String c r =>
      match rstrip sp r with
      | EmptyString => if sp c then EmptyString else String c EmptyString
      | r' => String c r'
      end
  end.

(** [s.strip()] *)
Definition strip (s : string) : string := rstrip isspace (lstrip isspace s).

(** [s.split(sep)] for a one-character separator: never an empty list. *)
Fixpoint split (sep : ascii) (s : string) : list string :=
  match s with
  | EmptyString => [EmptyString]
  | String c r =>
      if Ascii.eqb c sep then EmptyString :: split sep r
      else match split sep r with
           | f :: fs => String c f :: fs
           | [] => [String c EmptyString]
           end
  end.

(** [sep.join(l)] *)
Definition join (sep : string) (l : list string) : string := String.concat sep l.

(** *** [int(s)]

    Blanks around the literal are dropped (the C blanks, and U+0085 and
    U+00A0, which the conversion turns into blanks), then comes an optional
    sign and decimal digits, where one underscore may stand between two
    digits.  Anything else is refused ([None] stands for [ValueError]), and
    so is a literal of more than 4300 digits: every digit counts, a leading
    zero too; the sign, the underscores and the blanks do not. *)
Definition int_space (c : ascii) : bool :=
  in_range 9 13 c || (ord c =? 32)%N || (ord c =? 133)%N || (ord c =? 160)%N.

Definition is_digit (c : ascii) : bool := in_range 48 57 c.

Fixpoint digits_value (acc : N) (after_digit : bool) (s : string) : option N :=
  match s with
  | EmptyString => if after_digit then Some acc else None
  | String c r =>
      if is_digit c then digits_value (10 * acc + (ord c - 48))%N true r
      else if Ascii.eqb c "_" then
             if after_digit then digits_value acc false r else None
      else None
  end.

(** [sys.get_int_max_str_digits()] as the interpreter starts. *)
Definition max_str_digits : nat := 4300.

Fixpoint digit_count (s : string) : nat :=
  match s with
  | EmptyString => 0
  | String c r => (if is_digit c then 1 else 0) + digit_count r
  end.

(** The digits after the sign. *)
Definition unsigned (t : string) : option N :=
  if Nat.leb (digit_count t) max_str_digits then digits_value 0 false t
  else None.

(** The literal once the blanks are gone. *)
Definition signed (t : string) : option Z :=
  match t with
  | String "+" r => Z.of_N <$> unsigned r
  | String "-" r => (fun n => (- Z.of_N n)%Z) <$> unsigned r
  | _ => Z.of_N <$> unsigned t
  end.

Definition int (s : string) : option Z :=
  signed (rstrip int_space (lstrip int_space s)).

(** *** [str(n)] for an integer, as an f-string renders it

    The interpreter renders an integer of at most 4300 digits ([str_fits])
    and raises [ValueError] for a longer one; [str] gives the digits in both
    cases, and the code that can meet a longer one asks [str_fits] first. *)
Fixpoint digits_of (fuel : nat) (n : N) (acc : string) : string :=
  match fuel with
  | O => acc
  | S fuel' =>
      let acc' := String (chr (48 + n mod 10)) acc in
      if (n / 10 =? 0)%N then acc' else digits_of fuel' (n / 10) acc'
  end.

Definition str_nat (n : N) : string :=
  digits_of (S (N.to_nat (N.log2 n))) n EmptyString.

Definition str (z : Z) : string :=
  match z with
  | Zneg p => String "-" (str_nat (Npos p))
  | _ => str_nat (Z.to_N z)
  end.

Definition str_fits (z : Z) : bool :=
  (Z.abs z <? 10 ^ Z.of_nat max_str_digits)%Z.

Definition is_ascii (s : string) : bool :=
  forallb (fun c => (ord c <? 128)%N) (list_ascii_of_string s).

(** [s.encode("ascii")]: [None] stands for [UnicodeEncodeError]. *)
Definition encode_ascii (s : string) : option (list Byte.byte) :=
  if is_ascii s then Some (list_byte_of_string s) else None.

End Py.

Definition newline : string := String "010"%char EmptyString.

(** ** Exceptions, results and the application state *)

(** The exceptions the modelled code can raise.  [OSError] carries the text
    the socket layer, or the clock, gives; the others are raised by the
    interpreter. *)
Inductive exn :=
| RuntimeError (msg : string)
| ValueError_int (literal : string)   (* int(literal) refused *)
| ValueError_sleep                    (* time.sleep of a negative length *)
| OverflowError                       (* time.sleep of a length out of range *)
| UnicodeEncodeError                  (* encode("ascii") refused *)
| OSError (msg : string)              (* sendall, or the clock, failed *)
| IndexError
| KeyError (key : string).

(** The text of a status label: a fixed literal, or [f"Error: {e}"]. *)
Inductive status :=
| status_text (s : string)
| status_error (e : exn).

(** What the wire and the clock see, in order. *)
Inductive event :=
| Sent (data : list Byte.byte)
| Slept (ms : Z).

(** A connected socket.  [pending] holds the outcomes of the coming
    [sendall] calls, first call first: [None] for a write that goes through,
    [Some msg] for one that raises [OSError(msg)]; calls beyond the list go
    through. *)
Record socket := { pending : list (option string) }.

Definition sendall (sk : socket) : option string * socket :=
  match pending sk with
  | [] => (None, sk)
  | o :: rest => (o, {| pending := rest |})
  end.

Definition loc := nat.

(** A macro dictionary; a key that is absent is [None].  ['steps'] refers to
    a list object in the store.  The fields have the types the application
    itself writes: text for the name, the trigger and the alias, a list of
    texts for the steps.  A JSON file can hold other values under these keys
    (a number or [null] for a name); a dictionary loaded from such a file is
    not one of these records, and nothing below speaks of it. *)
Record Macro := {
  m_name : option string;
  m_trigger : option string;
  m_chat_command : option string;
  m_steps : option loc }.

(** The fields of [MacroBuilderApp] the modelled methods use, the store of
    step lists the macros refer to, the log of what was sent and slept, and
    the reading of the monotonic clock, in milliseconds, which [time.sleep]
    adds its length to. *)
Record App := {
  macros : list Macro;
  selected_index : option nat;
  heap : gmap loc (list string);
  switch_socket : option socket;
  switch_connected : bool;
  test_status_var : status;
  wire : list event;
  monotonic : Z }.

Definition set_macros (ms : list Macro) (a : App) : App :=
  {| macros := ms; selected_index := selected_index a; heap := heap a;
     switch_socket := switch_socket a; switch_connected := switch_connected a;
     test_status_var := test_status_var a; wire := wire a; monotonic := monotonic a |}.

Definition set_selected_index (i : option nat) (a : App) : App :=
  {| macros := macros a; selected_index := i; heap := heap a;
     switch_socket := switch_socket a; switch_connected := switch_connected a;
     test_status_var := test_status_var a; wire := wire a; monotonic := monotonic a |}.

Definition set_heap (h : gmap loc (list string)) (a : App) : App :=
  {| macros := macros a; selected_index := selected_index a; heap := h;
     switch_socket := switch_socket a; switch_connected := switch_connected a;
     test_status_var := test_status_var a; wire := wire a; monotonic := monotonic a |}.

Definition set_switch_socket (s : option socket) (a : App) : App :=
  {| macros := macros a; selected_index := selected_index a; heap := heap a;
     switch_socket := s; switch_connected := switch_connected a;
     test_status_var := test_status_var a; wire := wire a; monotonic := monotonic a |}.

Definition set_test_status (st : status) (a : App) : App :=
  {| macros := macros a; selected_index := selected_index a; heap := heap a;
     switch_socket := switch_socket a; switch_connected := switch_connected a;
     test_status_var := st; wire := wire a; monotonic := monotonic a |}.

Definition log (e : event) (a : App) : App :=
  {| macros := macros a; selected_index := selected_index a; heap := heap a;
     switch_socket := switch_socket a; switch_connected := switch_connected a;
     test_status_var := test_status_var a; wire := wire a ++ [e]; monotonic := monotonic a |}.

(** A method either returns a value or raises, and leaves a state behind in
    both cases. *)
Inductive result (A : Type) :=
| Ok (a : A) (s : App)
| Raise (e : exn) (s : App).
Arguments Ok {A} a s.
Arguments Raise {A} e s.

Definition M (A : Type) : Type := App -> result A.

Definition ret {A} (a : A) : M A := fun s => Ok a s.
Definition raise {A} (e : exn) : M A := fun s => Raise e s.
Definition bind {A B} (m : M A) (k : A -> M B) : M B :=
  fun s => match m s with
           | Ok a s' => k a s'
           | Raise e s' => Raise e s'
           end.

Notation "x <- m ;; k" := (bind m (fun x => k))
  (at level 100, m at next level, right associativity).
Notation "m ;;; k" := (bind m (fun _ => k))
  (at level 100, right associativity).

(** ** The connection *)

(** [_send_sysbot_cmd]: refuses without a socket, else writes the command
    and a newline, as ASCII, with [sendall]. *)
Definition _send_sysbot_cmd (cmd : string) : M unit := fun a =>
  match switch_socket a with
  | None => Raise (RuntimeError "Not connected") a
  | Some sk =>
      match Py.encode_ascii (cmd ++ newline) with
      | None => Raise UnicodeEncodeError a
      | Some data =>
          match sendall sk with
          | (Some msg, sk') => Raise (OSError msg) (set_switch_socket (Some sk') a)
          | (None, sk') => Ok tt (log (Sent data) (set_switch_socket (Some sk') a))
          end
      end
  end.

(** The longest length, in milliseconds, that fits the signed 64-bit count
    of nanoseconds [time.sleep] converts its argument to. *)
Definition sleep_max : Z := 9223372036854.

(** The reading of the monotonic clock, which starts when the machine does.
    The model takes it between 0 and [clock_limit], a little over seven
    years of uptime, in whole milliseconds, and as fixed while one method
    runs. *)
Definition clock_limit : Z := 223372036854.

Definition clock_ms (a : App) : Z := Z.max 0 (Z.min (monotonic a) clock_limit).

(** [time.sleep(ms/1000)], as CPython 3.11 runs it on Linux.  The length is
    converted first: beyond [sleep_max], on either side of zero, this raises
    [OverflowError], before the sign is looked at.  A negative length then
    raises [ValueError].  The deadline is the reading of the clock plus the
    length, and the system call refuses one beyond the count
    ([OSError], [EINVAL]). *)
Definition sleep_ms (ms : Z) : M unit := fun a =>
  if ((ms <? - sleep_max) || (sleep_max <? ms))%Z then Raise OverflowError a
  else if (ms <? 0)%Z then Raise ValueError_sleep a
  else if (sleep_max <? clock_ms a + ms)%Z
       then Raise (OSError "[Errno 22] Invalid argument") a
  else Ok tt (log (Slept ms) a).

Definition int_of (s : string) : M Z :=
  match Py.int s with
  | Some z => ret z
  | None => raise (ValueError_int s)
  end.

(** ** Playback: [_test_macro] *)

(** The body shared by the three stick branches ([%], [&] and [Stick:]):
    split the payload at commas and, when there are exactly two fields,
    convert both, send [setStick] and settle. *)
Definition stick_branch (side payload : string) : M unit :=
  match Py.split "," payload with
  | [sx; sy] =>
      x <- int_of sx ;;
      y <- int_of sy ;;
      _send_sysbot_cmd ("setStick " ++ side ++ " " ++ Py.str x ++ " " ++ Py.str y) ;;;
      sleep_ms 100
  | _ => ret tt
  end.

(** [(i+1 < len(steps)) and steps[i+1].startswith("Wait:")] *)
Definition next_is_wait (steps : list string) (i : nat) : bool :=
  match steps !! (i + 1) with
  | Some nxt => Py.startswith nxt "Wait:"
  | None => false
  end.

(** One turn of the [while] loop at cursor [i]; returns the next cursor. *)
Definition iteration (steps : list string) (i : nat) : M nat :=
  match steps !! i with
  | None => raise IndexError
  | Some step =>
      if Py.startswith step "Button:" then
        let btn := Py.upper (Py.slice_from 7 step) in
        if next_is_wait steps i then
          _send_sysbot_cmd ("press " ++ btn) ;;;
          ms <- int_of (Py.slice_from 5 (default EmptyString (steps !! (i + 1)))) ;;
          sleep_ms ms ;;;
          _send_sysbot_cmd ("release " ++ btn) ;;;
          ret (i + 2)
        else
          _send_sysbot_cmd ("click " ++ btn) ;;;
          sleep_ms 100 ;;;
          ret (i + 1)
      else if Py.startswith step "Hold:" then
        _send_sysbot_cmd ("press " ++ Py.upper (Py.slice_from 5 step)) ;;;
        ret (i + 1)
      else if Py.startswith step "Release:" then
        _send_sysbot_cmd ("release " ++ Py.upper (Py.slice_from 8 step)) ;;;
        ret (i + 1)
      else if Py.startswith step "%" then
        stick_branch "LEFT" (Py.slice_from 1 step) ;;; ret (i + 1)
      else if Py.startswith step "&" then
        stick_branch "RIGHT" (Py.slice_from 1 step) ;;; ret (i + 1)
      else if Py.startswith step "Stick:" then
        stick_branch "LEFT" (Py.slice_from 6 step) ;;; ret (i + 1)
      else if Py.startswith step "Wait:" then
        ms <- int_of (Py.slice_from 5 step) ;;
        sleep_ms ms ;;;
        ret (i + 1)
      else ret (i + 1)
  end.

(** [while i < len(steps)]: [None] when the fuel runs out before the loop
    ends. *)
Fixpoint loop (fuel : nat) (steps : list string) (i : nat) (a : App)
  : option (result unit) :=
  if Nat.ltb i (List.length steps) then
    match fuel with
    | O => None
    | S fuel' =>
        match iteration steps i a with
        | Ok i' a' => loop fuel' steps i' a'
        | Raise e a' => Some (Raise e a')
        end
    end
  else Some (Ok tt a).

(** [macro.get('steps', [])] *)
Definition steps_of (a : App) (m : Macro) : list string :=
  match m_steps m with
  | Some l => default [] (heap a !! l)
  | None => []
  end.

(** [_test_macro]; [curselection] is the selection of the macro list box.
    The result is [Ok] with the status label set, or the [IndexError] of the
    lookup outside the [try]. *)
Definition _test_macro (curselection : option nat) (a : App) : option (result unit) :=
  if negb (switch_connected a) || negb (bool_decide (is_Some (switch_socket a))) then
    Some (Ok tt (set_test_status (status_text "Not connected to Switch!") a))
  else
    match curselection with
    | None => Some (Ok tt (set_test_status (status_text "No macro selected.") a))
    | Some idx =>
        match macros a !! idx with
        | None => Some (Raise IndexError a)
        | Some macro =>
            let steps := steps_of a macro in
            match steps with
            | [] => Some (Ok tt (set_test_status (status_text "Macro has no steps.") a))
            | _ =>
                match loop (List.length steps) steps 0 a with
                | Some (Ok _ a') =>
                    Some (Ok tt (set_test_status (status_text "Macro sent!") a'))
                | Some (Raise e a') =>
                    Some (Ok tt (set_test_status (status_error e) a'))
                | None => None
                end
            end
        end
    end.

(** ** The macro library *)

Definition BUTTONS : list string :=
  ["A"; "B"; "X"; "Y"; "L"; "R"; "ZL"; "ZR"; "PLUS"; "MINUS"; "HOME";
   "CAPTURE"; "LSTICK"; "RSTICK"].

Definition DPAD : list (string * string) :=
  [("Up", "DUP"); ("Down", "DDOWN"); ("Left", "DLEFT"); ("Right", "DRIGHT");
   ("Up-Left", "DUPLEFT"); ("Up-Right", "DUPRIGHT");
   ("Down-Left", "DDOWNLEFT"); ("Down-Right", "DDOWNRIGHT")].

(** The button names of the command vocabulary. *)
Definition button_names : list string := (BUTTONS ++ map snd DPAD)%list.

(** The tokens [_add_step] builds: [f"Button:{...}"] and [f"Wait:{ms}"]. *)
Definition button_token (b : string) : string := "Button:" ++ b.
Definition wait_token (ms : Z) : string := "Wait:" ++ Py.str ms.

(** The step type chosen in the editor, with the variables of its panel. *)
Inductive step_panel :=
| PanelButton (button_var : string)
| PanelHold (hold_var : string)
| PanelRelease (release_var : string)
| PanelStickMove (stick_side_var : string) (stick_x stick_y : Z)
| PanelWait (wait_var : string)
| PanelOther.

(** [_add_step]: the token handed to [_insert_step], or [None] when the
    method ends without one: it returns after a dialog, or the f-string of
    a stick position too long to render raises. *)
Definition _add_step (t : step_panel) : option string :=
  match t with
  | PanelButton b => Some (button_token b)
  | PanelHold b => Some ("Hold:" ++ b)
  | PanelRelease b => Some ("Release:" ++ b)
  | PanelStickMove side x y =>
      if Py.str_fits x && Py.str_fits y then
        if String.eqb side "LEFT"
        then Some ("%" ++ Py.str x ++ "," ++ Py.str y)
        else Some ("&" ++ Py.str x ++ "," ++ Py.str y)
      else None
  | PanelWait w =>
      match Py.int w with
      | Some ms => if (ms <? 1)%Z then None else Some (wait_token ms)
      | None => None
      end
  | PanelOther => None
  end.

(** [max(-32767, min(32767, x))] *)
Definition clamp_axis (x : Z) : Z := Z.max (-32767) (Z.min 32767 x).

(** [_on_stick_grid_click]: [x] and [y] are the integers the click position
    was converted to; the result is [(stick_x, stick_y)]. *)
Definition _on_stick_grid_click (x y : Z) : Z * Z := (clamp_axis x, clamp_axis y).

(** [l.insert(i, x)] *)
Definition py_insert {A} (i : nat) (x : A) (l : list A) : list A :=
  (take i l ++ x :: drop i l)%list.

(** [l.append(x)] on the list object at [l] of the store. *)
Definition list_append (l : loc) (x : string) (h : gmap loc (list string))
  : gmap loc (list string) :=
  alter (fun xs => (xs ++ [x])%list) l h.

(** [_clone_macro]: [dict.copy()] copies the keys and the references the
    dictionary holds; ['name'] is then bound to a longer string. *)
Definition _clone_macro : M unit := fun a =>
  match selected_index a with
  | None => Ok tt a
  | Some idx =>
      match macros a !! idx with
      | None => Raise IndexError a
      | Some m =>
          match m_name m with
          | None => Raise (KeyError "name") a
          | Some n =>
              let macro := {| m_name := Some (n ++ " (Copy)");
                              m_trigger := m_trigger m;
                              m_chat_command := m_chat_command m;
                              m_steps := m_steps m |} in
              Ok tt (set_selected_index (Some (idx + 1))
                       (set_macros (py_insert (idx + 1) macro (macros a)) a))
          end
      end
  end.

(** The body of the loop in [_import_macros]. *)
Definition import_record (m : Macro) : Macro :=
  if bool_decide (is_Some (m_chat_command m)) && negb (bool_decide (is_Some (m_trigger m)))
  then {| m_name := m_name m; m_trigger := m_chat_command m;
          m_chat_command := m_chat_command m; m_steps := m_steps m |}
  else m.

(** [_import_macros]: [data] is the list read from the file, its step lists
    already in the store. *)
Definition _import_macros (data : list Macro) (a : App) : App :=
  set_macros (macros a ++ map import_record data)%list a.

Inductive dialog :=
| showerror (title message : string)
| showinfo (title message : string).

(** [_save_macro]: [name_var] and [trigger_var] are the entry fields and
    [listbox] the entries of the step list box.  The list [_get_steps] builds
    enters the store when a macro is saved. *)
Definition _save_macro (name_var trigger_var : string) (listbox : list string)
    (a : App) : App * dialog :=
  let name := Py.strip name_var in
  let trigger := Py.strip trigger_var in
  let steps := listbox in
  match name, trigger, steps with
  | EmptyString, _, _ => (a, showerror "Error" "Macro name is required.")
  | _, EmptyString, _ => (a, showerror "Error" "Trigger is required.")
  | _, _, [] => (a, showerror "Error" "At least one step is required.")
  | _, _, _ =>
      let l := fresh (dom (heap a)) in
      let macro := {| m_name := Some name; m_trigger := Some trigger;
                      m_chat_command := Some trigger; m_steps := Some l |} in
      let a1 := set_heap (<[l := steps]> (heap a)) a in
      let stored :=
        match selected_index a with
        | Some idx =>
            if Nat.ltb idx (List.length (macros a))
            then set_macros (<[idx := macro]> (macros a)) a1
            else set_selected_index (Some (List.length (macros a ++ [macro])%list - 1))
                   (set_macros (macros a ++ [macro])%list a1)
        | None =>
            set_selected_index (Some (List.length (macros a ++ [macro])%list - 1))
              (set_macros (macros a ++ [macro])%list a1)
        end in
      (stored, showinfo "Saved" ("Macro '" ++ name ++ "' saved."))
  end.

(** [_interpret_step] *)
Definition _interpret_step (step : string) : string :=
  if Py.startswith step "Button:" then "Press " ++ Py.slice_from 7 step
  else if Py.startswith step "Hold:" then "Hold " ++ Py.slice_from 5 step
  else if Py.startswith step "Release:" then "Release " ++ Py.slice_from 8 step
  else if Py.startswith step "Stick:" then "Move stick to " ++ Py.slice_from 6 step
  else if Py.startswith step "Wait:" then "Wait " ++ Py.slice_from 5 step ++ " ms"
  else step.

(** [_update_preview]: the texts put in the raw and the interpreted
    preview. *)
Definition _update_preview (steps : list string) : string * string :=
  (Py.join "," steps, Py.join newline (map _interpret_step steps)).

(** ** Notions used by the statements *)

(** The bytes of one command line. *)
Definition line (cmd : string) : list Byte.byte :=
  list_byte_of_string (cmd ++ newline).

(** The next [n] writes of the socket go through. *)
Definition writes_ok (n : nat) (sk : socket) : Prop :=
  Forall (fun o => o = None) (take n (pending sk)).

(** The socket after [n] writes. *)
Definition advance (n : nat) (sk : socket) : socket :=
  {| pending := drop n (pending sk) |}.

(** The state after the events [evs], [n] of them writes on socket [sk]. *)
Definition played (evs : list event) (n : nat) (sk : socket) (a : App) : App :=
  {| macros := macros a; selected_index := selected_index a; heap := heap a;
     switch_socket := Some (advance n sk);
     switch_connected := switch_connected a;
     test_status_var := test_status_var a; wire := wire a ++ evs; monotonic := monotonic a |}.

(** Playback from the start gets to cursor [i] in state [a]. *)
Inductive reaches (steps : list string) (a0 : App) : nat -> App -> Prop :=
| reaches_start : reaches steps a0 0 a0
| reaches_next i a i' a' :
    reaches steps a0 i a ->
    i < List.length steps ->
    iteration steps i a = Ok i' a' ->
    reaches steps a0 i' a'.

(** A token with none of the seven prefixes. *)
Definition unrecognised (step : string) : bool :=
  negb (Py.startswith step "Button:" || Py.startswith step "Hold:"
        || Py.startswith step "Release:" || Py.startswith step "%"
        || Py.startswith step "&" || Py.startswith step "Stick:"
        || Py.startswith step "Wait:").

(** A stick token whose payload is not two comma-separated fields. *)
Definition malformed_stick (step : string) : bool :=
  let bad n := negb (Nat.eqb (List.length (Py.split "," (Py.slice_from n step))) 2) in
  (Py.startswith step "%" && bad 1)
  || (Py.startswith step "&" && bad 1)
  || (Py.startswith step "Stick:" && bad 6).

Definition skipped (step : string) : bool :=
  unrecognised step || malformed_stick step.

(** No character of [s] is a line break. *)
Definition single_line (s : string) : bool :=
  forallb (fun c => negb (Ascii.eqb c "010")) (list_ascii_of_string s).

(** The example macro ["Jump"], selected, with the given steps, on a
    connected socket with the given coming write outcomes. *)
Definition jump_app (steps : list string) (script : list (option string)) : App :=
  {| macros := [ {| m_name := Some "Jump"; m_trigger := Some "!jump";
                    m_chat_command := None; m_steps := Some 0 |} ];
     selected_index := Some 0;
     heap := {[ 0 := steps ]};
     switch_socket := Some {| pending := script |};
     switch_connected := true;
     test_status_var := status_text EmptyString;
     wire := []; monotonic := 0 |}.

(** ** The editor, and the rest of the macro list *)

(** The entry fields and the step list box of the macro tab. *)
Record Editor := {
  name_var : string;
  trigger_var : string;
  steps_listbox : list string }.

(** [_set_steps]: empty the list box, then add the steps at its end, one
    after the other. *)
Definition _set_steps (steps : list string) (ed : Editor) : Editor :=
  {| name_var := name_var ed; trigger_var := trigger_var ed;
     steps_listbox := fold_left (fun lb s => (lb ++ [s])%list) steps [] |}.

(** [_get_steps]: the entries by index; [get] gives the empty string where
    there is none. *)
Definition _get_steps (ed : Editor) : list string :=
  map (fun i => default EmptyString (steps_listbox ed !! i))
      (seq 0 (List.length (steps_listbox ed))).

(** [x or y] on strings. *)
Definition py_or (x y : string) : string :=
  match x with
  | EmptyString => y
  | _ => x
  end.

(** The body of [_on_select] once the macro is looked up. *)
Definition show_macro (a : App) (macro : Macro) (ed : Editor) : Editor :=
  _set_steps (steps_of a macro)
    {| name_var := default EmptyString (m_name macro);
       trigger_var := py_or (default EmptyString (m_trigger macro))
                            (default EmptyString (m_chat_command macro));
       steps_listbox := steps_listbox ed |}.

(** [_on_select]; [inl] is the exception of a lookup that fails. *)
Definition _on_select (curselection : option nat) (ui : App * Editor)
  : exn + App * Editor :=
  let (a, ed) := ui in
  match curselection with
  | None => inr (set_selected_index None a, ed)
  | Some idx =>
      match macros a !! idx with
      | None => inl IndexError
      | Some macro => inr (set_selected_index (Some idx) a, show_macro a macro ed)
      end
  end.

(** [_new_macro] *)
Definition _new_macro (ui : App * Editor) : App * Editor :=
  (set_selected_index None (fst ui),
   _set_steps [] {| name_var := EmptyString; trigger_var := EmptyString;
                    steps_listbox := steps_listbox (snd ui) |}).

(** [_refresh_macro_list]: the list box is filled again from the macros;
    a selected index that is in range is selected again, which runs
    [_on_select] on it, and otherwise [_new_macro] runs. *)
Definition _refresh_macro_list (ui : App * Editor) : App * Editor :=
  match selected_index (fst ui) with
  | Some idx =>
      match macros (fst ui) !! idx with
      | Some macro => (fst ui, show_macro (fst ui) macro (snd ui))
      | None => _new_macro ui
      end
  | None => _new_macro ui
  end.

(** [_delete_macro] *)
Definition _delete_macro (curselection : option nat) (ui : App * Editor)
  : exn + App * Editor :=
  match curselection with
  | None => inr ui
  | Some idx =>
      match macros (fst ui) !! idx with
      | None => inl IndexError
      | Some _ =>
          inr (_refresh_macro_list
                 (set_selected_index None
                    (set_macros (delete idx (macros (fst ui))) (fst ui)),
                  snd ui))
      end
  end.

(** [_move_up]: the two right-hand sides are read first, then the upper
    place is written, then the lower one. *)
Definition _move_up (ui : App * Editor) : exn + App * Editor :=
  let a := fst ui in
  match selected_index a with
  | Some idx =>
      if Nat.ltb 0 idx then
        match macros a !! idx, macros a !! (idx - 1) with
        | Some x, Some y =>
            inr (_refresh_macro_list
                   (set_selected_index (Some (idx - 1))
                      (set_macros (<[idx := y]> (<[idx - 1 := x]> (macros a))) a),
                    snd ui))
        | _, _ => inl IndexError
        end
      else inr ui
  | None => inr ui
  end.

(** [_move_down] *)
Definition _move_down (ui : App * Editor) : exn + App * Editor :=
  let a := fst ui in
  match selected_index a with
  | Some idx =>
      if Nat.ltb (idx + 1) (List.length (macros a)) then
        match macros a !! idx, macros a !! (idx + 1) with
        | Some x, Some y =>
            inr (_refresh_macro_list
                   (set_selected_index (Some (idx + 1))
                      (set_macros (<[idx := y]> (<[idx + 1 := x]> (macros a))) a),
                    snd ui))
        | _, _ => inl IndexError
        end
      else inr ui
  | None => inr ui
  end.

(** The copy [_export_macros] makes of one macro:
    [macro['chat_command'] = macro.get('trigger', '')]. *)
Definition export_record (m : Macro) : Macro :=
  {| m_name := m_name m; m_trigger := m_trigger m;
     m_chat_command := Some (default EmptyString (m_trigger m));
     m_steps := m_steps m |}.

(** [_export_macros]: [path] is what the file dialog returns (empty when it
    is cancelled).  The result is the list handed to [json.dump], if any,
    and the dialog shown; the write itself is taken to go through. *)
Definition _export_macros (path : string) (a : App)
  : option (list Macro) * option dialog :=
  match macros a with
  | [] => (None, Some (showinfo "Export" "No macros to export."))
  | _ =>
      match path with
      | EmptyString => (None, None)
      | _ =>
          (Some (map export_record (macros a)),
           Some (showinfo "Export"
                   ("Exported " ++ Py.str (Z.of_nat (List.length (macros a)))
                    ++ " macros to " ++ path)))
      end
  end.

(** [_save_macro] with what follows it in the method: the fields come from
    the editor, and after a save [_refresh_macro_list] runs. *)
Definition save_clicked (ui : App * Editor) : (App * Editor) * dialog :=
  let (a, ed) := ui in
  match _save_macro (name_var ed) (trigger_var ed) (_get_steps ed) a with
  | (a', showinfo t m) => (_refresh_macro_list (a', ed), showinfo t m)
  | (a', showerror t m) => ((a', ed), showerror t m)
  end.

(** *** The step list box

    The functions below work on the entries of the list box;
    [curselection] is its first selected index, if any. *)

(** [_insert_step] *)
Definition _insert_step (step : string) (curselection : option nat)
    (lb : list string) : list string :=
  match step with
  | EmptyString => lb
  | _ => py_insert (default (List.length lb) curselection) step lb
  end.

(** [_move_step_up]: the entries, and the index selected at the end. *)
Definition _move_step_up (curselection : option nat) (lb : list string)
  : list string * option nat :=
  match curselection with
  | None | Some O => (lb, curselection)
  | Some idx =>
      let step := default EmptyString (lb !! idx) in
      (py_insert (idx - 1) step (delete idx lb), Some (idx - 1))
  end.

(** [_move_step_down] *)
Definition _move_step_down (curselection : option nat) (lb : list string)
  : list string * option nat :=
  match curselection with
  | None => (lb, curselection)
  | Some idx =>
      if Nat.eqb (idx + 1) (List.length lb) then (lb, curselection)
      else
        let step := default EmptyString (lb !! idx) in
        (py_insert (idx + 1) step (delete idx lb), Some (idx + 1))
  end.

(** [_edit_step]: [new] is what the dialog returns, [None] when it is
    cancelled. *)
Definition _edit_step (curselection : option nat) (new : option string)
    (lb : list string) : list string :=
  match curselection, new with
  | Some idx, Some (String c r) => py_insert idx (String c r) (delete idx lb)
  | _, _ => lb
  end.

(** [_delete_step] *)
Definition _delete_step (curselection : option nat) (lb : list string)
  : list string :=
  match curselection with
  | Some idx => delete idx lb
  | None => lb
  end.

(** [_add_stick_release]: the token it inserts; [side] is the stick side
    variable, if the stick panel was ever built. *)
Definition _add_stick_release (side : option string) : string :=
  match side with
  | Some s => if String.eqb s "RIGHT" then "&0,0" else "%0,0"
  | None => "%0,0"
  end.

(** ** Connecting, and the manual controls *)

(** The text of the connection label: a literal, or [f"Failed: {e}"]. *)
Inductive conn_status :=
| conn_text (s : string)
| conn_failed (e : exn).

(** [_connect_switch]: [ip_var] and [port_var] are the entry fields, and
    [dial] is the network: what [socket.connect((ip, port))] ends in. *)
Definition _connect_switch (ip_var port_var : string)
    (dial : string -> Z -> exn + socket) (a : App) : App * conn_status :=
  let ip := Py.strip ip_var in
  match Py.int (Py.strip port_var) with
  | None => (a, conn_text "Invalid port")
  | Some port =>
      match dial ip port with
      | inr s =>
          ({| macros := macros a; selected_index := selected_index a;
              heap := heap a; switch_socket := Some s;
              switch_connected := true;
              test_status_var := test_status_var a; wire := wire a; monotonic := monotonic a |},
           conn_text ("Connected to " ++ ip ++ ":" ++ Py.str port))
      | inl e =>
          ({| macros := macros a; selected_index := selected_index a;
              heap := heap a; switch_socket := None;
              switch_connected := false;
              test_status_var := test_status_var a; wire := wire a; monotonic := monotonic a |},
           conn_failed e)
      end
  end.

(** [_disconnect_switch]: what [close] raises is dropped. *)
Definition _disconnect_switch (a : App) : App * conn_status :=
  ({| macros := macros a; selected_index := selected_index a;
      heap := heap a; switch_socket := None; switch_connected := false;
      test_status_var := test_status_var a; wire := wire a; monotonic := monotonic a |},
   conn_text "Disconnected").

(** The guard the manual controls and [_test_macro] share. *)
Definition connected (a : App) : bool :=
  switch_connected a && bool_decide (is_Some (switch_socket a)).

(** [_manual_click_button]: the state and the text of the manual status
    label. *)
Definition _manual_click_button (btn : string) (a : App) : App * status :=
  if connected a then
    match _send_sysbot_cmd ("click " ++ btn) a with
    | Ok _ a' => (a', status_text ("Clicked: " ++ btn))
    | Raise e a' => (a', status_error e)
    end
  else (a, status_text "Not connected to Switch!").

(** The positions of the two sticks of the manual tab. *)
Record ManualSticks := {
  manual_stick_x_left : Z;
  manual_stick_y_left : Z;
  manual_stick_x_right : Z;
  manual_stick_y_right : Z }.

Definition set_manual_stick (side : string) (x y : Z) (st : ManualSticks)
  : ManualSticks :=
  if String.eqb side "LEFT"
  then {| manual_stick_x_left := x; manual_stick_y_left := y;
          manual_stick_x_right := manual_stick_x_right st;
          manual_stick_y_right := manual_stick_y_right st |}
  else {| manual_stick_x_left := manual_stick_x_left st;
          manual_stick_y_left := manual_stick_y_left st;
          manual_stick_x_right := x; manual_stick_y_right := y |}.

(** The part the two manual stick methods share once the position is
    stored: the guard, the [setStick] of the stored position, the label. *)
Definition manual_stick_send (side : string) (sent : string)
    (st : ManualSticks) (a : App) : App * status :=
  if connected a then
    let cmd :=
      if String.eqb side "LEFT"
      then "setStick LEFT " ++ Py.str (manual_stick_x_left st) ++ " "
           ++ Py.str (manual_stick_y_left st)
      else "setStick RIGHT " ++ Py.str (manual_stick_x_right st) ++ " "
           ++ Py.str (manual_stick_y_right st) in
    match _send_sysbot_cmd cmd a with
    | Ok _ a' => (a', status_text sent)
    | Raise e a' => (a', status_error e)
    end
  else (a, status_text "Not connected to Switch!").

(** [_manual_stick_grid_click]: [x] and [y] are the integers the click
    position was converted to. *)
Definition _manual_stick_grid_click (x y : Z) (side : string)
    (st : ManualSticks) (a : App) : ManualSticks * (App * status) :=
  let st' := set_manual_stick side (clamp_axis x) (clamp_axis y) st in
  let sent :=
    if String.eqb side "LEFT"
    then "Sent left stick: " ++ Py.str (manual_stick_x_left st') ++ ","
         ++ Py.str (manual_stick_y_left st')
    else "Sent right stick: " ++ Py.str (manual_stick_x_right st') ++ ","
         ++ Py.str (manual_stick_y_right st') in
  (st', manual_stick_send side sent st' a).

(** [_manual_stick_release] *)
Definition _manual_stick_release (side : string) (st : ManualSticks) (a : App)
  : ManualSticks * (App * status) :=
  let st' := set_manual_stick side 0 0 st in
  let sent :=
    if String.eqb side "LEFT" then "Sent left stick release (center)"
    else "Sent right stick release (center)" in
  (st', manual_stick_send side sent st' a).

(** ** More notions used by the statements *)

(** The switch flag and the socket agree. *)
Definition link_consistent (a : App) : Prop :=
  switch_connected a = bool_decide (is_Some (switch_socket a)).

(** An event as playback produces them: a write of a command and the
    newline after it, all of it ASCII, or a sleep that is not negative.
    The command is the text [_send_sysbot_cmd] was given: it is one line
    when the step it was built from holds no line break, and nothing here
    says it is. *)
Definition well_formed (e : event) : Prop :=
  match e with
  | Sent data => exists cmd, Py.is_ascii cmd = true /\ data = line cmd
  | Slept ms => (0 <= ms)%Z
  end.

(** [a'] has the macros, the store and the selection of [a], the same
    connection flag, a socket when [a] has one, and the log of [a] followed
    by events that are well formed. *)
Definition follows (a a' : App) : Prop :=
  macros a' = macros a
  /\ heap a' = heap a
  /\ selected_index a' = selected_index a
  /\ switch_connected a' = switch_connected a
  /\ (is_Some (switch_socket a') <-> is_Some (switch_socket a))
  /\ exists evs, wire a' = (wire a ++ evs)%list /\ Forall well_formed evs.

(** Every step list a macro refers to is in the store. *)
Definition steps_in_store (a : App) : Prop :=
  forall m l, m ∈ macros a -> m_steps m = Some l -> is_Some (heap a !! l).

(** The state after a method call, whichever way it ended. *)
Definition state_of {A} (r : result A) : App :=
  match r with
  | Ok _ a' => a'
  | Raise _ a' => a'
  end.

(** A computation whose end state always follows its start state. *)
Definition keeps {A} (m : M A) : Prop := forall a, follows a (state_of (m a)).

(** The selected index, when there is one, is the index of a macro. *)
Definition selection_in_range (a : App) : Prop :=
  forall idx, selected_index a = Some idx -> idx < List.length (macros a).

(** The states the application gets to: [__init__] leaves it with no macro,
    no selection, no socket and the flag down, and from there any of the
    modelled methods runs, with any arguments; the files [_import_macros]
    loads hold records of the types [Macro] has. *)
Inductive reachable : App -> Prop :=
| reach_init a :
    macros a = [] -> selected_index a = None ->
    switch_socket a = None -> switch_connected a = false ->
    reachable a
| reach_connect ip port dial a :
    reachable a -> reachable (fst (_connect_switch ip port dial a))
| reach_disconnect a :
    reachable a -> reachable (fst (_disconnect_switch a))
| reach_test cur a r :
    reachable a -> _test_macro cur a = Some r -> reachable (state_of r)
| reach_click btn a :
    reachable a -> reachable (fst (_manual_click_button btn a))
| reach_grid x y side st a :
    reachable a -> reachable (fst (snd (_manual_stick_grid_click x y side st a)))
| reach_release side st a :
    reachable a -> reachable (fst (snd (_manual_stick_release side st a)))
| reach_save ed a :
    reachable a -> reachable (fst (fst (save_clicked (a, ed))))
| reach_clone a :
    reachable a -> reachable (state_of (_clone_macro a))
| reach_import data a :
    reachable a -> reachable (_import_macros data a)
| reach_select cur ed a ui :
    reachable a -> _on_select cur (a, ed) = inr ui -> reachable (fst ui)
| reach_new ed a :
    reachable a -> reachable (fst (_new_macro (a, ed)))
| reach_delete cur ed a ui :
    reachable a -> _delete_macro cur (a, ed) = inr ui -> reachable (fst ui)
| reach_move_up ed a ui :
    reachable a -> _move_up (a, ed) = inr ui -> reachable (fst ui)
| reach_move_down ed a ui :
    reachable a -> _move_down (a, ed) = inr ui -> reachable (fst ui).

(** A socket with no failure ahead. *)
Definition idle : socket := {| pending := [] |}.

Definition five_taps : list string :=
  ["Button:A"; "Button:B"; "Button:X"; "Button:Y"; "Button:L"].

(** Two records as a macro file may hold them. *)
Definition both_fields : Macro :=
  {| m_name := Some "Dash"; m_trigger := Some "!dash";
     m_chat_command := Some "!run"; m_steps := None |}.

(** A record without a name. *)
Definition nameless : Macro :=
  {| m_name := None; m_trigger := Some "!roll";
     m_chat_command := None; m_steps := None |}.

Definition alias_only : Macro :=
  {| m_name := Some "Dash"; m_trigger := None;
     m_chat_command := Some "!run"; m_steps := None |}.

(** The application as [__init__] leaves it. *)
Definition started : App :=
  {| macros := []; selected_index := None; heap := ∅;
     switch_socket := None; switch_connected := false;
     test_status_var := status_text EmptyString; wire := []; monotonic := 0 |}.

(** An editor with a macro typed in. *)
Definition dash_editor : Editor :=
  {| name_var := " Dash "; trigger_var := "!dash";
     steps_listbox := ["Button:A"; "Wait:250"] |}.

(** Three macros, the second one selected. *)
Definition trio : App :=
  {| macros :=
       [ {| m_name := Some "Walk"; m_trigger := Some "!walk";
            m_chat_command := None; m_steps := None |};
         {| m_name := Some "Dash"; m_trigger := Some "!dash";
            m_chat_command := None; m_steps := None |};
         {| m_name := Some "Jump"; m_trigger := None;
            m_chat_command := Some "!jump"; m_steps := None |} ];
     selected_index := Some 1; heap := ∅;
     switch_socket := None; switch_connected := false;
     test_status_var := status_text EmptyString; wire := []; monotonic := 0 |}.

(** ** A write that fails *)

(** The writes in a log. *)
Fixpoint sent_count (evs : list event) : nat :=
  match evs with
  | [] => 0
  | Sent _ :: r => S (sent_count r)
  | Slept _ :: r => sent_count r
  end.

(** The socket of [a] lets [n] more writes through and fails the one after
    them with [msg]; [rest] is what it holds beyond that one. *)
Definition fails_after (n : nat) (msg : string) (rest : list (option string))
    (a : App) : Prop :=
  switch_socket a = Some {| pending := (replicate n None ++ Some msg :: rest)%list |}.

(** From [a] to [a'] the failing write was not tried: [a'] still has it
    ahead, closer by the number of writes made on the way. *)
Definition not_yet_failed (n : nat) (msg : string) (rest : list (option string))
    (a a' : App) : Prop :=
  exists n', n' <= n /\ fails_after n' msg rest a'
             /\ sent_count (wire a') = sent_count (wire a) + (n - n').

(** From [a] the failing write was tried: it raised [e], the error of the
    socket, and left [a'], where the [n] writes before it are in the log
    and no other, and the socket is past the failure. *)
Definition failed_at_write (n : nat) (msg : string) (rest : list (option string))
    (a : App) (e : exn) (a' : App) : Prop :=
  e = OSError msg
  /\ switch_socket a' = Some {| pending := rest |}
  /\ sent_count (wire a') = sent_count (wire a) + n.

(** A computation that returns only while the failing write is ahead, and
    that ends with the error of that write, and nothing after it, once it
    tries it. *)
Definition stops_at_failure {A} (m : M A) : Prop :=
  forall n msg rest a,
    fails_after n msg rest a ->
    match m a with
    | Ok _ a' => not_yet_failed n msg rest a a'
    | Raise e a' =>
        not_yet_failed n msg rest a a' \/ failed_at_write n msg rest a e a'
    end.

(** * Properties *)

(** ** Strings and integers *)

Section PyFacts.

Lemma is_ascii_app (s t : string) :
  Py.is_ascii (s ++ t) = Py.is_ascii s && Py.is_ascii t.
Proof.
  unfold Py.is_ascii. induction s as [|c s IH]; simpl; [reflexivity|].
  rewrite IH. now rewrite andb_assoc.
Qed.

Lemma encode_ascii_ok (s : string) :
  Py.is_ascii s = true -> Py.encode_ascii s = Some (list_byte_of_string s).
Proof. unfold Py.encode_ascii. now intros ->. Qed.

Lemma digit_cases (d : N) :
  (d < 10)%N ->
  d = 0%N \/ d = 1%N \/ d = 2%N \/ d = 3%N \/ d = 4%N \/ d = 5%N
  \/ d = 6%N \/ d = 7%N \/ d = 8%N \/ d = 9%N.
Proof. lia. Qed.

(** A property all ten digit characters have holds of every character that
    [digits_of] writes. *)
Lemma digits_of_forallb (P : ascii -> bool) :
  (forall d, (d < 10)%N -> P (Py.chr (48 + d)) = true) ->
  forall fuel n acc,
    forallb P (list_ascii_of_string acc) = true ->
    forallb P (list_ascii_of_string (Py.digits_of fuel n acc)) = true.
Proof.
  intros HP. induction fuel as [|fuel IH]; intros n acc Hacc; simpl; [exact Hacc|].
  assert (Hd : forallb P (list_ascii_of_string
                 (String (Py.chr (48 + n mod 10)) acc)) = true).
  { simpl. rewrite Hacc, HP; [reflexivity|]. apply N.mod_lt. lia. }
  destruct (n / 10 =? 0)%N; [exact Hd | now apply IH].
Qed.

Lemma digits_of_head (fuel : nat) (n : N) (acc : string) :
  exists c r, Py.digits_of (S fuel) n acc = String c r /\ Py.is_digit c = true.
Proof.
  revert n acc. induction fuel as [|fuel IH]; intros n acc.
  - simpl. exists (Py.chr (48 + n mod 10)), acc. split.
    + now destruct (n / 10 =? 0)%N.
    + destruct (digit_cases (n mod 10)) as [E|E];
        [apply N.mod_lt; lia | | ];
        repeat (destruct E as [E|E]); rewrite E; reflexivity.
  - change (Py.digits_of (S (S fuel)) n acc)
      with (let acc' := String (Py.chr (48 + n mod 10)) acc in
            if (n / 10 =? 0)%N then acc' else Py.digits_of (S fuel) (n / 10) acc').
    cbv zeta. destruct (n / 10 =? 0)%N.
    + exists (Py.chr (48 + n mod 10)), acc. split; [reflexivity|].
      destruct (digit_cases (n mod 10)) as [E|E];
        [apply N.mod_lt; lia | | ];
        repeat (destruct E as [E|E]); rewrite E; reflexivity.
    + apply IH.
Qed.

Lemma digit_char_value (d : N) :
  (d < 10)%N ->
  Py.is_digit (Py.chr (48 + d)) = true /\ (Py.ord (Py.chr (48 + d)) - 48 = d)%N.
Proof.
  intros H. destruct (digit_cases d H) as [E|E];
    repeat (destruct E as [E|E]); rewrite E; split; reflexivity.
Qed.

(** Reading back what [digits_of] wrote in front of [acc]. *)
Lemma digits_value_digits_of (fuel : nat) :
  forall n acc,
    (n < 2 ^ N.of_nat (S fuel))%N ->
    Py.digits_value 0 false (Py.digits_of (S fuel) n acc)
    = Py.digits_value n true acc.
Proof.
  induction fuel as [|fuel IH]; intros n acc Hn.
  - assert (n / 10 = 0)%N as E.
    { apply N.div_small. change (2 ^ N.of_nat 1)%N with 2%N in Hn. lia. }
    simpl. rewrite E. simpl.
    destruct (digit_char_value (n mod 10)) as [Hd Hv]; [apply N.mod_lt; lia|].
    rewrite Hd, Hv. f_equal. rewrite N.mod_small; [lia|].
    change (2 ^ N.of_nat 1)%N with 2%N in Hn. lia.
  - change (Py.digits_of (S (S fuel)) n acc)
      with (let acc' := String (Py.chr (48 + n mod 10)) acc in
            if (n / 10 =? 0)%N then acc' else Py.digits_of (S fuel) (n / 10) acc').
    cbv zeta.
    destruct (digit_char_value (n mod 10)) as [Hd Hv]; [apply N.mod_lt; lia|].
    destruct (n / 10 =? 0)%N eqn:E.
    + apply N.eqb_eq in E. simpl. rewrite Hd, Hv. f_equal.
      pose proof (N.div_mod n 10). lia.
    + rewrite IH.
      * simpl. rewrite Hd, Hv. f_equal. pose proof (N.div_mod n 10). lia.
      * rewrite Nat2N.inj_succ, N.pow_succ_r' in Hn.
        apply N.Div0.div_lt_upper_bound. lia.
Qed.

Lemma lstrip_id (sp : ascii -> bool) (s : string) :
  forallb (fun c => negb (sp c)) (list_ascii_of_string s) = true ->
  Py.lstrip sp s = s.
Proof.
  destruct s as [|c r]; simpl; [reflexivity|].
  intros H. apply andb_true_iff in H as [H _].
  now destruct (sp c).
Qed.

Lemma rstrip_id (sp : ascii -> bool) (s : string) :
  forallb (fun c => negb (sp c)) (list_ascii_of_string s) = true ->
  Py.rstrip sp s = s.
Proof.
  induction s as [|c r IH]; simpl; [reflexivity|].
  intros H. apply andb_true_iff in H as [Hc Hr].
  rewrite (IH Hr). destruct r; [|reflexivity].
  now destruct (sp c).
Qed.

Lemma signed_digit (c : ascii) (r : string) :
  Py.is_digit c = true ->
  Py.signed (String c r) = Z.of_N <$> Py.unsigned (String c r).
Proof.
  destruct c as [[] [] [] [] [] [] [] []]; intros H;
    solve [discriminate H | reflexivity].
Qed.

(** [digits_of] writes at most as many digits as the number has. *)
Lemma digit_count_digits_of (fuel : nat) :
  forall n acc k,
    (n < 10 ^ N.of_nat k)%N -> 1 <= k ->
    Py.digit_count (Py.digits_of fuel n acc) <= k + Py.digit_count acc.
Proof.
  induction fuel as [|fuel IH]; intros n acc k Hn Hk; simpl; [lia|].
  assert (Hc : Py.digit_count (String (Py.chr (48 + n mod 10)) acc)
               <= 1 + Py.digit_count acc).
  { simpl. destruct (Py.is_digit _); lia. }
  destruct (n / 10 =? 0)%N eqn:E.
  - lia.
  - apply N.eqb_neq in E.
    destruct k as [|[|k]]; [lia | |].
    + exfalso. apply E. apply N.div_small. exact Hn.
    + specialize (IH (n / 10)%N (String (Py.chr (48 + n mod 10)) acc) (S k)).
      assert (n / 10 < 10 ^ N.of_nat (S k))%N as Hq.
      { apply N.Div0.div_lt_upper_bound.
        rewrite (Nat2N.inj_succ (S k)), N.pow_succ_r' in Hn. exact Hn. }
      specialize (IH Hq). lia.
Qed.

Lemma unsigned_str_nat (n : N) :
  (n < 10 ^ N.of_nat Py.max_str_digits)%N ->
  Py.unsigned (Py.str_nat n) = Some n.
Proof.
  intros Hn. unfold Py.unsigned, Py.str_nat.
  set (fuel := N.to_nat (N.log2 n)).
  pose proof (digit_count_digits_of (S fuel) n EmptyString Py.max_str_digits Hn)
    as Hc.
  assert (Hle : Py.digit_count (Py.digits_of (S fuel) n EmptyString)
                <= Py.max_str_digits).
  { change (Py.digit_count EmptyString) with 0 in Hc.
    rewrite Nat.add_0_r in Hc. apply Hc.
    unfold Py.max_str_digits. apply Nat.lt_0_succ. }
  apply Nat.leb_le in Hle. rewrite Hle.
  rewrite digits_value_digits_of; [reflexivity|].
  subst fuel. rewrite Nat2N.inj_succ, N2Nat.id.
  destruct n as [|p]; [reflexivity|].
  apply N.log2_spec. lia.
Qed.

Lemma str_nat_no_space (n : N) :
  forallb (fun c => negb (Py.int_space c))
    (list_ascii_of_string (Py.str_nat n)) = true.
Proof.
  apply digits_of_forallb; [|reflexivity].
  intros d Hd. destruct (digit_cases d Hd) as [E|E];
    repeat (destruct E as [E|E]); rewrite E; reflexivity.
Qed.

Lemma signed_str_nat (n : N) :
  (n < 10 ^ N.of_nat Py.max_str_digits)%N ->
  Py.signed (Py.str_nat n) = Some (Z.of_N n).
Proof.
  intros Hn.
  destruct (digits_of_head (N.to_nat (N.log2 n)) n EmptyString) as (c & r & E & Hc).
  fold (Py.str_nat n) in E.
  rewrite E, (signed_digit c r Hc), <- E, (unsigned_str_nat n Hn). reflexivity.
Qed.

Lemma int_str_nat (n : N) :
  (n < 10 ^ N.of_nat Py.max_str_digits)%N ->
  Py.int (Py.str_nat n) = Some (Z.of_N n).
Proof.
  intros Hn. unfold Py.int.
  rewrite (lstrip_id _ _ (str_nat_no_space n)), (rstrip_id _ _ (str_nat_no_space n)).
  now apply signed_str_nat.
Qed.

Lemma str_fits_N (z : Z) :
  Py.str_fits z = true ->
  (Z.to_N (Z.abs z) < 10 ^ N.of_nat Py.max_str_digits)%N.
Proof.
  unfold Py.str_fits. intros H. apply Z.ltb_lt in H.
  apply N2Z.inj_lt. rewrite Z2N.id by apply Z.abs_nonneg.
  rewrite N2Z.inj_pow, nat_N_Z. exact H.
Qed.

(** [int(str(z)) == z]: what an f-string writes for an integer, [int]
    reads back. *)
Lemma int_str (z : Z) : Py.str_fits z = true -> Py.int (Py.str z) = Some z.
Proof.
  intros Hz. apply str_fits_N in Hz.
  destruct z as [|p|p].
  - reflexivity.
  - apply (int_str_nat (Npos p)). exact Hz.
  - change (Z.to_N (Z.abs (Z.neg p))) with (N.pos p) in Hz.
    unfold Py.int, Py.str.
    set (t := Py.str_nat (N.pos p)).
    assert (Hsp' : forallb (fun c => negb (Py.int_space c))
                     (list_ascii_of_string (String "-" t)) = true)
      by (simpl; subst t; now rewrite str_nat_no_space).
    rewrite (lstrip_id _ _ Hsp'), (rstrip_id _ _ Hsp').
    change (Py.signed (String "-" t))
      with ((fun n => (- Z.of_N n)%Z) <$> Py.unsigned t).
    subst t. rewrite (unsigned_str_nat _ Hz). reflexivity.
Qed.





Lemma is_ascii_str (z : Z) : Py.is_ascii (Py.str z) = true.
Proof.
  assert (HN : forall n, Py.is_ascii (Py.str_nat n) = true).
  { intros n. apply digits_of_forallb; [|reflexivity].
    intros d Hd. destruct (digit_cases d Hd) as [E|E];
      repeat (destruct E as [E|E]); rewrite E; reflexivity. }
  destruct z; simpl; apply HN.
Qed.

End PyFacts.

(** ** The monad, the socket and the log *)

Section Playback.

Lemma startswith_app (p s : string) : Py.startswith (p ++ s) p = true.
Proof.
  unfold Py.startswith. induction p as [|c p IH]; simpl; [now destruct s|].
  destruct (ascii_dec c c); [exact IH | congruence].
Qed.

Lemma slice_from_app (p s : string) : Py.slice_from (String.length p) (p ++ s) = s.
Proof. induction p as [|c p IH]; simpl; [now destruct s | exact IH]. Qed.

Lemma startswith_head (c : ascii) (p s : string) :
  Py.startswith s (String c p) = true -> exists r, s = String c r.
Proof.
  unfold Py.startswith. destruct s as [|d r]; simpl; [discriminate|].
  destruct (ascii_dec c d) as [->|]; [eauto | discriminate].
Qed.

Lemma bind_Ok {A B} (m : M A) (k : A -> M B) (a a' : App) (v : B) :
  bind m k a = Ok v a' ->
  exists x a1, m a = Ok x a1 /\ k x a1 = Ok v a'.
Proof.
  unfold bind. destruct (m a) as [x a1|e a1]; [eauto | discriminate].
Qed.

Lemma bind_step {A B} (m : M A) (k : A -> M B) (a a1 : App) (x : A) :
  m a = Ok x a1 -> bind m k a = k x a1.
Proof. unfold bind. now intros ->. Qed.

Lemma bind_raise {A B} (m : M A) (k : A -> M B) (a a1 : App) (e : exn) :
  m a = Raise e a1 -> bind m k a = Raise e a1.
Proof. unfold bind. now intros ->. Qed.

Lemma advance_0 (sk : socket) : advance 0 sk = sk.
Proof. now destruct sk. Qed.

Lemma played_nil (sk : socket) (a : App) :
  switch_socket a = Some sk -> played [] 0 sk a = a.
Proof.
  intros H. unfold played. rewrite advance_0, app_nil_r, <- H. now destruct a.
Qed.

Lemma writes_ok_S (n : nat) (sk : socket) :
  writes_ok (S n) sk -> writes_ok 1 sk /\ writes_ok n (advance 1 sk).
Proof.
  unfold writes_ok, advance. destruct sk as [[|o rest]]; simpl.
  - intros _. split; [constructor | rewrite take_nil; constructor].
  - intros H. inversion H; subst. split; [repeat constructor | assumption].
Qed.

Lemma sendall_ok (sk : socket) :
  writes_ok 1 sk -> sendall sk = (None, advance 1 sk).
Proof.
  unfold writes_ok, sendall, advance. destruct sk as [[|o rest]]; simpl.
  - reflexivity.
  - intros H. inversion H; subst. now rewrite drop_0.
Qed.

Lemma advance_advance (n m : nat) (sk : socket) :
  advance m (advance n sk) = advance (n + m) sk.
Proof. unfold advance. simpl. now rewrite drop_drop. Qed.

Lemma writes_ok_advance (n m : nat) (sk : socket) :
  writes_ok (n + m) sk -> writes_ok m (advance n sk).
Proof.
  revert sk. induction n as [|n IH]; intros sk H.
  - now rewrite advance_0.
  - apply writes_ok_S in H as [_ H]. apply IH in H.
    now rewrite advance_advance in H.
Qed.

(** A write that goes through, after [n] earlier ones. *)
Lemma send_played (cmd : string) (evs : list event) (n : nat) (sk : socket) (a : App) :
  Py.is_ascii cmd = true ->
  writes_ok (S n) sk ->
  _send_sysbot_cmd cmd (played evs n sk a)
  = Ok tt (played (evs ++ [Sent (line cmd)]) (S n) sk a).
Proof.
  intros Hcmd Hok. unfold _send_sysbot_cmd. simpl.
  rewrite encode_ascii_ok by (rewrite is_ascii_app, Hcmd; reflexivity).
  replace (S n) with (n + 1) in Hok by lia.
  rewrite (sendall_ok _ (writes_ok_advance _ _ _ Hok)), advance_advance.
  unfold played, log, set_switch_socket, line. simpl.
  rewrite <- app_assoc. replace (n + 1) with (S n) by lia. reflexivity.
Qed.

Lemma clock_ms_range (a : App) : (0 <= clock_ms a <= 223372036854)%Z.
Proof. unfold clock_ms, clock_limit. lia. Qed.

(** A sleep whose deadline the clock can hold goes through. *)
Lemma sleep_ok (ms : Z) (a : App) :
  (0 <= ms)%Z -> (clock_ms a + ms <= sleep_max)%Z ->
  sleep_ms ms a = Ok tt (log (Slept ms) a).
Proof.
  intros H0 H1. pose proof (clock_ms_range a) as Hc. unfold sleep_ms.
  destruct (Z.ltb_spec ms (- sleep_max)); [unfold sleep_max in *; lia|].
  destruct (Z.ltb_spec sleep_max ms); [lia|]. simpl.
  destruct (Z.ltb_spec ms 0); [lia|].
  destruct (Z.ltb_spec sleep_max (clock_ms a + ms)); [lia|]. reflexivity.
Qed.

(** A length beyond [sleep_max] is refused before anything else. *)
Lemma sleep_overflow (ms : Z) (a : App) :
  (sleep_max < ms)%Z -> sleep_ms ms a = Raise OverflowError a.
Proof.
  intros H. unfold sleep_ms.
  destruct (Z.ltb_spec sleep_max ms); [|lia]. now rewrite orb_true_r.
Qed.

Lemma sleep_negative (ms : Z) (a : App) :
  (ms < 0)%Z ->
  sleep_ms ms a
  = Raise (if (ms <? - sleep_max)%Z then OverflowError else ValueError_sleep) a.
Proof.
  intros H. unfold sleep_ms.
  destruct (Z.ltb_spec ms (- sleep_max)); [reflexivity|].
  destruct (Z.ltb_spec sleep_max ms); [unfold sleep_max in *; lia|]. simpl.
  destruct (Z.ltb_spec ms 0); [reflexivity | lia].
Qed.


Lemma sleep_played_clock (ms : Z) (evs : list event) (n : nat) (sk : socket)
    (a : App) :
  (0 <= ms)%Z -> (clock_ms a + ms <= sleep_max)%Z ->
  sleep_ms ms (played evs n sk a) = Ok tt (played (evs ++ [Slept ms]) n sk a).
Proof.
  intros H0 H1. rewrite sleep_ok; [| exact H0 | exact H1].
  unfold played, log. simpl. now rewrite <- app_assoc.
Qed.

(** A length of up to 9,000,000,000,000 ms has its deadline in range
    whatever the clock reads. *)
Lemma sleep_played (ms : Z) (evs : list event) (n : nat) (sk : socket) (a : App) :
  (0 <= ms <= 9000000000000)%Z ->
  sleep_ms ms (played evs n sk a) = Ok tt (played (evs ++ [Slept ms]) n sk a).
Proof.
  intros H. apply sleep_played_clock; [lia|].
  pose proof (clock_ms_range a). unfold sleep_max. lia.
Qed.

Lemma button_name_plain (b : string) :
  In b button_names -> Py.upper b = b /\ Py.is_ascii b = true.
Proof.
  unfold button_names, BUTTONS, DPAD. simpl.
  intros H. repeat (destruct H as [<-|H]; [split; reflexivity|]). destruct H.
Qed.

Lemma int_of_Some (s : string) (z : Z) (a : App) :
  Py.int s = Some z -> int_of s a = Ok z a.
Proof. unfold int_of. now intros ->. Qed.

(** Every turn of the loop that returns moves the cursor forward. *)
Lemma iteration_advances (steps : list string) (i i' : nat) (a a' : App) :
  iteration steps i a = Ok i' a' -> i < i'.
Proof.
  unfold iteration. destruct (steps !! i) as [step|]; [|discriminate].
  repeat match goal with
         | |- context [if ?b then _ else _] => destruct b
         end;
    intros H;
    repeat match type of H with
           | bind _ _ _ = Ok _ _ =>
               apply bind_Ok in H as (? & ? & _ & H)
           end;
    injection H as <- _; lia.
Qed.



(** The loop ends whenever the fuel covers the steps left. *)
Lemma loop_total (fuel : nat) :
  forall steps i a, List.length steps - i <= fuel -> is_Some (loop fuel steps i a).
Proof.
  induction fuel as [|fuel IH]; intros steps i a Hf; simpl.
  - destruct (Nat.ltb_spec i (List.length steps)); [lia | eauto].
  - destruct (Nat.ltb_spec i (List.length steps)); [|eauto].
    destruct (iteration steps i a) as [i' a'|e a'] eqn:E; [|eauto].
    apply iteration_advances in E. apply IH. lia.
Qed.

Lemma loop_reaches (steps : list string) (a0 : App) (k : nat) (ak : App) :
  reaches steps a0 k ak ->
  forall fuel, exists n,
      n <= k /\ (n <= fuel -> loop fuel steps 0 a0 = loop (fuel - n) steps k ak).
Proof.
  induction 1 as [|i a i' a' _ IH Hi Hit]; intros fuel.
  - exists 0. split; [lia|]. intros _. now rewrite Nat.sub_0_r.
  - destruct (IH fuel) as (n & Hn & Hloop).
    pose proof (iteration_advances _ _ _ _ _ Hit) as Hlt.
    exists (S n). split; [lia|]. intros Hf.
    rewrite Hloop by lia.
    replace (fuel - n) with (S (fuel - S n)) by lia.
    simpl. destruct (Nat.ltb_spec i (List.length steps)); [|lia].
    now rewrite Hit.
Qed.

(** [_test_macro] always comes back. *)
Lemma _test_macro_total (curselection : option nat) (a : App) :
  is_Some (_test_macro curselection a).
Proof.
  unfold _test_macro.
  destruct (negb (switch_connected a) || _); [eauto|].
  destruct curselection as [idx|]; [|eauto].
  destruct (macros a !! idx) as [m|]; [|eauto].
  destruct (steps_of a m) as [|s l] eqn:E; [eauto|].
  destruct (loop_total (List.length (s :: l)) (s :: l) 0 a) as [r Hr]; [lia|].
  rewrite Hr. destruct r; eauto.
Qed.

End Playback.

(** ** Playback, one step at a time *)

Section Steps.

Variables (steps : list string) (i : nat) (a : App) (sk : socket).
Hypothesis Hsock : switch_socket a = Some sk.

Ltac from_start :=
  match goal with
  | |- ?m a = ?r =>
      cut (m (played [] 0 sk a) = r);
      [ rewrite (played_nil sk a Hsock); exact (fun x => x) | ]
  end.

Ltac send_goes :=
  erewrite bind_step;
  [| apply send_played;
     [ repeat (rewrite is_ascii_app; apply andb_true_intro; split);
       first [reflexivity | apply is_ascii_str | assumption]
     | assumption ] ].

Ltac sleep_goes :=
  erewrite bind_step; [| apply sleep_played; lia ].


(** C6: a tap with no wait right after it is a click and a settle.  At a
    cursor on [Button:b] whose next step, if any, is not a [Wait:], one turn
    of the loop writes [click b], sleeps 100 milliseconds, and moves the
    cursor to the next step. *)
Theorem lone_tap_is_click_and_settle (b : string) :
  steps !! i = Some (button_token b) ->
  In b button_names ->
  (forall nxt, steps !! (i + 1) = Some nxt -> Py.startswith nxt "Wait:" = false) ->
  writes_ok 1 sk ->
  iteration steps i a
  = Ok (i + 1) (played [Sent (line ("click " ++ b)); Slept 100] 1 sk a).
Proof.
  intros Hi Hb Hn Hok.
  destruct (button_name_plain b Hb) as [Hup Hasc].
  assert (next_is_wait steps i = false) as Hnw.
  { unfold next_is_wait. destruct (steps !! (i + 1)) as [nxt|]; auto. }
  unfold iteration. rewrite Hi, Hnw.
  unfold button_token. rewrite startswith_app.
  replace (Py.slice_from 7 ("Button:" ++ b)) with b
    by (symmetry; apply (slice_from_app "Button:")).
  rewrite Hup. from_start.
  send_goes. sleep_goes. reflexivity.
Qed.

(** A token the loop has no branch for, or a stick token without exactly two
    fields, changes nothing. *)
Lemma skipped_iteration (step : string) :
  steps !! i = Some step ->
  skipped step = true ->
  iteration steps i a = Ok (i + 1) a.
Proof.
  intros Hi Hskip. unfold iteration. rewrite Hi.
  unfold skipped, unrecognised, malformed_stick in Hskip.
  destruct (Py.startswith step "Button:") eqn:E1;
    [apply startswith_head in E1 as [r ->]; discriminate Hskip|].
  destruct (Py.startswith step "Hold:") eqn:E2;
    [apply startswith_head in E2 as [r ->]; discriminate Hskip|].
  destruct (Py.startswith step "Release:") eqn:E3;
    [apply startswith_head in E3 as [r ->]; discriminate Hskip|].
  assert (forall side n,
             Nat.eqb (List.length (Py.split "," (Py.slice_from n step))) 2 = false ->
             (stick_branch side (Py.slice_from n step) ;;; ret (i + 1)) a
             = Ok (i + 1) a) as Hbad.
  { intros side n Hlen. unfold stick_branch.
    destruct (Py.split "," (Py.slice_from n step)) as [|sx [|sy [|sz l]]];
      try reflexivity. discriminate Hlen. }
  cbv zeta in Hskip.
  destruct (Py.startswith step "%") eqn:E4.
  { apply startswith_head in E4 as [r ->].
    destruct (Nat.eqb (List.length (Py.split "," (Py.slice_from 1 (String "%" r)))) 2)
      eqn:El; [discriminate Hskip | now apply Hbad]. }
  destruct (Py.startswith step "&") eqn:E5.
  { apply startswith_head in E5 as [r ->].
    destruct (Nat.eqb (List.length (Py.split "," (Py.slice_from 1 (String "&" r)))) 2)
      eqn:El; [discriminate Hskip | now apply Hbad]. }
  destruct (Py.startswith step "Stick:") eqn:E6.
  { destruct (Nat.eqb (List.length (Py.split "," (Py.slice_from 6 step))) 2)
      eqn:El; [discriminate Hskip | now apply Hbad]. }
  destruct (Py.startswith step "Wait:") eqn:E7; [discriminate Hskip|].
  reflexivity.
Qed.

End Steps.

(** ** Playback as a whole *)

Section Runs.

(** A stick step with two integer fields: the fields go out as read. *)
Lemma stick_branch_sends (side payload sx sy : string) (x y : Z) (j : nat)
    (a : App) (sk : socket) :
  switch_socket a = Some sk ->
  Py.is_ascii side = true ->
  Py.split "," payload = [sx; sy] ->
  Py.int sx = Some x ->
  Py.int sy = Some y ->
  writes_ok 1 sk ->
  (stick_branch side payload ;;; ret j) a
  = Ok j (played [Sent (line ("setStick " ++ side ++ " " ++ Py.str x ++ " " ++ Py.str y));
                  Slept 100] 1 sk a).
Proof.
  intros Hsock Hside Hsplit Hx Hy Hok.
  unfold stick_branch. rewrite Hsplit.
  erewrite bind_step; [reflexivity|].
  rewrite <- (played_nil sk a Hsock) at 1.
  erewrite bind_step; [| apply int_of_Some, Hx ].
  erewrite bind_step; [| apply int_of_Some, Hy ].
  erewrite bind_step; cycle 1.
  - apply send_played; [|assumption].
    rewrite !is_ascii_app, Hside, !is_ascii_str. reflexivity.
  - apply sleep_played. lia.
Qed.

(** C4, as the code has it: no range check on stick text.  A stick token
    ([%], [&] or the older [Stick:]) whose payload is two fields that [int]
    accepts is sent as [setStick] with the two integers as read, inside
    [-32767, 32767] or not, followed by the 100 ms settle; the clamp to
    [-32767, 32767] is applied by the grid picker alone.  (What [int]
    accepts ends at 4300 digits.) *)
Theorem stick_text_is_sent_as_read :
  (forall (steps : list string) (i : nat) (a : App) (sk : socket)
          (prefix side payload sx sy : string) (x y : Z),
      switch_socket a = Some sk ->
      steps !! i = Some (prefix ++ payload) ->
      In (prefix, side) [("%", "LEFT"); ("&", "RIGHT"); ("Stick:", "LEFT")] ->
      Py.split "," payload = [sx; sy] ->
      Py.int sx = Some x ->
      Py.int sy = Some y ->
      writes_ok 1 sk ->
      iteration steps i a
      = Ok (i + 1)
           (played [Sent (line ("setStick " ++ side ++ " " ++ Py.str x ++ " " ++ Py.str y));
                    Slept 100] 1 sk a))
  /\ (forall x y : Z,
         let '(stick_x, stick_y) := _on_stick_grid_click x y in
         (-32767 <= stick_x <= 32767)%Z /\ (-32767 <= stick_y <= 32767)%Z
         /\ ((-32767 <= x <= 32767)%Z -> stick_x = x)
         /\ ((-32767 <= y <= 32767)%Z -> stick_y = y)).
Proof.
  split.
  - intros steps i a sk prefix side payload sx sy x y Hsock Hi Hin Hsplit Hx Hy Hok.
    unfold iteration. rewrite Hi.
    destruct Hin as [E|[E|[E|[]]]]; injection E as <- <-.
    + change (Py.startswith ("%" ++ payload) "Button:") with false.
      change (Py.startswith ("%" ++ payload) "Hold:") with false.
      change (Py.startswith ("%" ++ payload) "Release:") with false.
      rewrite (startswith_app "%").
      change (Py.slice_from 1 ("%" ++ payload)) with payload.
      cbv iota. now apply (stick_branch_sends _ payload sx sy).
    + change (Py.startswith ("&" ++ payload) "Button:") with false.
      change (Py.startswith ("&" ++ payload) "Hold:") with false.
      change (Py.startswith ("&" ++ payload) "Release:") with false.
      change (Py.startswith ("&" ++ payload) "%") with false.
      rewrite (startswith_app "&").
      change (Py.slice_from 1 ("&" ++ payload)) with payload.
      cbv iota. now apply (stick_branch_sends _ payload sx sy).
    + change (Py.startswith ("Stick:" ++ payload) "Button:") with false.
      change (Py.startswith ("Stick:" ++ payload) "Hold:") with false.
      change (Py.startswith ("Stick:" ++ payload) "Release:") with false.
      change (Py.startswith ("Stick:" ++ payload) "%") with false.
      change (Py.startswith ("Stick:" ++ payload) "&") with false.
      rewrite (startswith_app "Stick:").
      change (Py.slice_from 6 ("Stick:" ++ payload)) with payload.
      cbv iota. now apply (stick_branch_sends _ payload sx sy).
  - intros x y. unfold _on_stick_grid_click, clamp_axis. lia.
Qed.

(** C10: a step that is nothing the loop knows is passed over.  At a
    cursor on a token with none of the seven prefixes, or on a stick token
    whose payload is not two comma-separated fields, one turn of the loop
    raises nothing, leaves the state (socket, log, status) as it was and
    moves the cursor to the next step; the loop goes on from there as if
    the step were not in the list. *)
Theorem unknown_step_is_passed_over (steps : list string) (i : nat)
    (step : string) (a : App) :
  steps !! i = Some step ->
  skipped step = true ->
  iteration steps i a = Ok (i + 1) a
  /\ forall fuel, loop (S fuel) steps i a = loop fuel steps (i + 1) a.
Proof.
  intros Hi Hskip.
  pose proof (skipped_iteration steps i a step Hi Hskip) as Hit.
  split; [exact Hit|]. intros fuel.
  apply lookup_lt_Some in Hi.
  simpl. destruct (Nat.ltb_spec i (List.length steps)); [|lia].
  now rewrite Hit.
Qed.

(** When playback has got to cursor [k] and the turn of the loop there
    raises [e], [_test_macro] ends in the state the raise left, with the
    status label set to [f"Error: {e}"]. *)
Lemma raise_ends_playback (a : App) (idx : nat) (macro : Macro)
    (k : nat) (ak : App) (e : exn) (a' : App) :
  switch_connected a = true ->
  is_Some (switch_socket a) ->
  macros a !! idx = Some macro ->
  reaches (steps_of a macro) a k ak ->
  k < List.length (steps_of a macro) ->
  iteration (steps_of a macro) k ak = Raise e a' ->
  _test_macro (Some idx) a
  = Some (Ok tt (set_test_status (status_error e) a')).
Proof.
  intros Hconn Hsk Hm Hreach Hk Hraise.
  unfold _test_macro. rewrite Hconn, Hm.
  rewrite (bool_decide_eq_true_2 _ Hsk). simpl.
  destruct (steps_of a macro) as [|s l] eqn:E; [simpl in Hk; lia|].
  destruct (loop_reaches _ _ _ _ Hreach (List.length (s :: l))) as (n & Hn & Hloop).
  rewrite Hloop by lia.
  replace (List.length (s :: l) - n) with (S (List.length (s :: l) - S n)) by lia.
  cbn [loop]. destruct (Nat.ltb_spec k (List.length (s :: l))); [|lia].
  now rewrite Hraise.
Qed.

(** C7, as the code has it.  [_send_sysbot_cmd] raises
    [RuntimeError("Not connected")] when there is no socket; with a socket
    and a write that goes through it writes the command and a newline, as
    ASCII bytes, and nothing else; and when the write fails the socket's
    error goes to the caller, nothing is logged as written, and the
    connection stays as it was: the socket is kept and [switch_connected]
    is not touched. *)
Theorem send_writes_a_line_or_raises (cmd : string) (a : App) :
  (switch_socket a = None ->
   _send_sysbot_cmd cmd a = Raise (RuntimeError "Not connected") a)
  /\ (forall sk, switch_socket a = Some sk ->
                 Py.is_ascii cmd = true ->
                 writes_ok 1 sk ->
                 _send_sysbot_cmd cmd a = Ok tt (played [Sent (line cmd)] 1 sk a))
  /\ (forall sk msg rest,
         switch_socket a = Some sk ->
         Py.is_ascii cmd = true ->
         pending sk = Some msg :: rest ->
         exists a',
           _send_sysbot_cmd cmd a = Raise (OSError msg) a'
           /\ wire a' = wire a
           /\ switch_connected a' = switch_connected a
           /\ switch_socket a' = Some {| pending := rest |}).
Proof.
  split; [|split].
  - intros H. unfold _send_sysbot_cmd. now rewrite H.
  - intros sk Hs Hc Hok.
    rewrite <- (played_nil sk a Hs) at 1. now apply send_played.
  - intros sk msg rest Hs Hc Hp. unfold _send_sysbot_cmd. rewrite Hs.
    rewrite encode_ascii_ok by (rewrite is_ascii_app, Hc; reflexivity).
    unfold sendall. rewrite Hp. eexists. split; [reflexivity|]. simpl. auto.
Qed.

End Runs.

(** ** The macro library *)

Section Library.

Lemma py_insert_before {A} (i j : nat) (x : A) (l : list A) :
  j < i -> i <= List.length l -> py_insert i x l !! j = l !! j.
Proof.
  intros Hj Hi. unfold py_insert.
  rewrite lookup_app_l by (rewrite length_take; lia).
  now apply lookup_take_lt.
Qed.

Lemma py_insert_at {A} (i : nat) (x : A) (l : list A) :
  i <= List.length l -> py_insert i x l !! i = Some x.
Proof.
  intros Hi. unfold py_insert.
  apply list_lookup_middle. rewrite length_take. lia.
Qed.

Lemma py_insert_length {A} (i : nat) (x : A) (l : list A) :
  List.length (py_insert i x l) = S (List.length l).
Proof.
  unfold py_insert. rewrite length_app. simpl.
  rewrite length_take, length_drop. lia.
Qed.

(** C3, as the code has it: the clone is a copy of the dictionary, not of
    the list in it.  Cloning the selected macro puts, right after it, a
    macro whose name is the original name followed by [" (Copy)"], whose
    trigger and alias are the original ones, and whose steps are the very
    list object of the original: the original stays as it was, no list is
    added to the store, and an element appended to that one list shows in
    the steps of the original and of the clone alike. *)
Theorem clone_copies_the_dictionary (a : App) (idx : nat) (m : Macro) (n : string) :
  selected_index a = Some idx ->
  macros a !! idx = Some m ->
  m_name m = Some n ->
  exists a' clone,
    _clone_macro a = Ok tt a'
    /\ macros a' !! idx = Some m
    /\ macros a' !! (idx + 1) = Some clone
    /\ List.length (macros a') = S (List.length (macros a))
    /\ selected_index a' = Some (idx + 1)
    /\ heap a' = heap a
    /\ m_name clone = Some (n ++ " (Copy)")
    /\ m_trigger clone = m_trigger m
    /\ m_chat_command clone = m_chat_command m
    /\ m_steps clone = m_steps m
    /\ forall l xs x,
         m_steps m = Some l ->
         heap a !! l = Some xs ->
         let a'' := set_heap (list_append l x (heap a')) a' in
         steps_of a'' m = (xs ++ [x])%list /\ steps_of a'' clone = (xs ++ [x])%list.
Proof.
  intros Hsel Hm Hn.
  pose proof (lookup_lt_Some _ _ _ Hm) as Hlt.
  unfold _clone_macro. rewrite Hsel, Hm, Hn.
  eexists _, _. split; [reflexivity|]. simpl.
  split; [rewrite py_insert_before by lia; exact Hm|].
  split; [apply py_insert_at; lia|].
  split; [apply py_insert_length|].
  repeat (split; [reflexivity|]).
  intros l xs x Hl Hxs. unfold steps_of, list_append. simpl.
  now rewrite Hl, lookup_alter_eq, Hxs.
Qed.

(** C5, as the code has it: the alias fills a missing trigger and nothing
    more.  The records read from a file are added after the macros already
    there; each keeps its name, steps and [chat_command] as read, and its
    [trigger] is the one read when the record had one, else its
    [chat_command].  So a record read with both fields has them after the
    load as they were in the file, equal or not. *)
Theorem import_fills_a_missing_trigger (data : list Macro) (a : App) (j : nat)
    (m : Macro) :
  data !! j = Some m ->
  take (List.length (macros a)) (macros (_import_macros data a)) = macros a
  /\ exists m',
      macros (_import_macros data a) !! (List.length (macros a) + j) = Some m'
      /\ m_name m' = m_name m
      /\ m_steps m' = m_steps m
      /\ m_chat_command m' = m_chat_command m
      /\ m_trigger m' = match m_trigger m with
                        | Some t => Some t
                        | None => m_chat_command m
                        end.
Proof.
  intros Hj. unfold _import_macros. simpl. split.
  - now rewrite take_app_length.
  - exists (import_record m). split.
    + rewrite lookup_app_r by lia.
      replace (List.length (macros a) + j - List.length (macros a)) with j by lia.
      now rewrite list_lookup_fmap, Hj.
    + unfold import_record.
      destruct (m_chat_command m) as [c|] eqn:Ec, (m_trigger m) as [t|] eqn:Et;
        simpl; rewrite ?Ec, ?Et; auto.
Qed.


(** *** The preview *)

Lemma single_line_app (s t : string) :
  single_line (s ++ t) = single_line s && single_line t.
Proof.
  unfold single_line. induction s as [|c s IH]; simpl; [reflexivity|].
  rewrite IH. now rewrite andb_assoc.
Qed.

Lemma single_line_slice (n : nat) (s : string) :
  single_line s = true -> single_line (Py.slice_from n s) = true.
Proof.
  revert s. induction n as [|n IH]; intros [|c r] H; simpl; auto.
  apply IH. unfold single_line in *. simpl in H.
  now apply andb_true_iff in H as [_ H].
Qed.

Lemma single_line_interpret (step : string) :
  single_line step = true -> single_line (_interpret_step step) = true.
Proof.
  intros H. unfold _interpret_step.
  repeat match goal with
         | |- context [if ?b then _ else _] => destruct b
         end;
    rewrite ?single_line_app, ?single_line_slice by assumption;
    solve [reflexivity | assumption].
Qed.

Lemma split_single_line (s : string) :
  single_line s = true -> Py.split "010" s = [s].
Proof.
  unfold single_line. induction s as [|c r IH]; simpl; [reflexivity|].
  intros H. apply andb_true_iff in H as [Hc Hr].
  apply negb_true_iff in Hc. rewrite Hc, (IH Hr). reflexivity.
Qed.

Lemma split_first_line (s t : string) :
  single_line s = true ->
  Py.split "010" (s ++ String "010" t) = s :: Py.split "010" t.
Proof.
  unfold single_line. induction s as [|c r IH]; simpl; [reflexivity|].
  intros H. apply andb_true_iff in H as [Hc Hr].
  apply negb_true_iff in Hc. rewrite Hc, (IH Hr). reflexivity.
Qed.

(** Lines joined by line breaks split back into the same lines. *)
Lemma split_join_lines (l : list string) :
  l <> [] ->
  Forall (fun s => single_line s = true) l ->
  Py.split "010" (Py.join newline l) = l.
Proof.
  unfold Py.join. induction l as [|x [|y r] IH]; intros Hne Hall.
  - congruence.
  - simpl. apply split_single_line. now inversion Hall.
  - inversion Hall as [|? ? Hx Hrest]; subst.
    change (String.concat newline (x :: y :: r))
      with (x ++ String "010" (String.concat newline (y :: r))).
    rewrite split_first_line by assumption.
    f_equal. apply IH; [discriminate | assumption].
Qed.

(** What the editor builds with [_add_step]: the tokens the playback
    statements are about, on one line each. *)
Lemma add_step_tokens :
  (forall b, _add_step (PanelButton b) = Some (button_token b))
  /\ (forall w tok,
         _add_step (PanelWait w) = Some tok ->
         exists ms, (1 <= ms)%Z /\ Py.int w = Some ms /\ tok = wait_token ms).
Proof.
  split; [reflexivity|].
  intros w tok. simpl. destruct (Py.int w) as [ms|]; [|discriminate].
  destruct (Z.ltb_spec ms 1); [discriminate|].
  intros [= <-]. exists ms. auto.
Qed.

Lemma single_line_str (z : Z) : single_line (Py.str z) = true.
Proof.
  assert (HN : forall n, single_line (Py.str_nat n) = true).
  { intros n. apply digits_of_forallb; [|reflexivity].
    intros d Hd. destruct (digit_cases d Hd) as [E|E];
      repeat (destruct E as [E|E]); rewrite E; reflexivity. }
  destruct z; simpl; apply HN.
Qed.

Lemma add_step_single_line (t : step_panel) (tok : string) :
  _add_step t = Some tok ->
  match t with
  | PanelButton b | PanelHold b | PanelRelease b => single_line b = true
  | _ => True
  end ->
  single_line tok = true.
Proof.
  destruct t as [b|b|b|side x y|w|]; cbn [_add_step].
  - intros [= <-] Hb. unfold button_token. now rewrite single_line_app, Hb.
  - intros [= <-] Hb. now rewrite single_line_app, Hb.
  - intros [= <-] Hb. now rewrite single_line_app, Hb.
  - destruct (Py.str_fits x && Py.str_fits y); [|discriminate].
    destruct (String.eqb side "LEFT"); intros [= <-] _;
      now rewrite !single_line_app, !single_line_str.
  - destruct (Py.int w) as [ms|]; [|discriminate].
    destruct (ms <? 1)%Z; [discriminate|].
    intros [= <-] _. unfold wait_token.
    now rewrite single_line_app, single_line_str.
  - discriminate.
Qed.

(** C8, as the code has it: the preview.  For every list of steps the raw
    text is the tokens joined by commas and the interpreted text is the
    interpretations of the steps, in order, joined by line breaks, a
    [Button:] token reading [Press] and its name and a [Wait:] token
    reading [Wait], its number and [ms].  For a list that is not empty and
    whose steps hold no line break, the lines of the interpreted text are
    exactly these interpretations, one line for each step. *)
Theorem preview_has_one_line_per_step (steps : list string) :
  fst (_update_preview steps) = Py.join "," steps
  /\ snd (_update_preview steps) = Py.join newline (map _interpret_step steps)
  /\ (forall name, _interpret_step ("Button:" ++ name) = "Press " ++ name)
  /\ (forall ms, _interpret_step ("Wait:" ++ ms) = "Wait " ++ ms ++ " ms")
  /\ (steps <> [] ->
      Forall (fun s => single_line s = true) steps ->
      Py.split "010" (snd (_update_preview steps)) = map _interpret_step steps
      /\ List.length (Py.split "010" (snd (_update_preview steps)))
         = List.length steps).
Proof.
  split; [reflexivity|]. split; [reflexivity|].
  split; [|split].
  - intros name. unfold _interpret_step.
    rewrite (startswith_app "Button:").
    now rewrite (slice_from_app "Button:").
  - intros ms. unfold _interpret_step.
    change (Py.startswith ("Wait:" ++ ms) "Button:") with false.
    change (Py.startswith ("Wait:" ++ ms) "Hold:") with false.
    change (Py.startswith ("Wait:" ++ ms) "Release:") with false.
    change (Py.startswith ("Wait:" ++ ms) "Stick:") with false.
    rewrite (startswith_app "Wait:").
    now rewrite (slice_from_app "Wait:").
  - intros Hne Hall.
    assert (Py.split "010" (snd (_update_preview steps)) = map _interpret_step steps)
      as E.
    { simpl. apply split_join_lines.
      - destruct steps; [congruence | discriminate].
      - apply Forall_fmap. eapply Forall_impl; [exact Hall|].
        intros s Hs. now apply single_line_interpret. }
    split; [exact E|]. now rewrite E, length_map.
Qed.

End Library.

(** ** The statements at work on the example macro *)

Section Examples.



(** [Button:A, Button:B]: click, settle, click, settle. *)
Lemma two_taps_example :
  let steps := ["Button:A"; "Button:B"] in
  let a := jump_app steps [] in
  let a1 := played [Sent (line "click A"); Slept 100] 1 idle a in
  iteration steps 0 a = Ok 1 a1
  /\ _test_macro (Some 0) a
     = Some (Ok tt (set_test_status (status_text "Macro sent!")
                      (played [Sent (line "click A"); Slept 100;
                               Sent (line "click B"); Slept 100] 2 idle a))).
Proof.
  split.
  - apply (lone_tap_is_click_and_settle
             ["Button:A"; "Button:B"] 0 (jump_app ["Button:A"; "Button:B"] []) idle
             eq_refl "A").
    + reflexivity.
    + simpl. auto.
    + intros nxt H. injection H as <-. reflexivity.
    + unfold writes_ok. simpl. constructor.
  - vm_compute. reflexivity.
Defined.

(** A stray token and a stick token with three fields between two taps:
    only the taps reach the wire, and the macro is sent. *)
Lemma passed_over_example :
  let steps := ["Button:A"; "jump"; "%1,2,3"; "Button:B"] in
  let a := jump_app steps [] in
  (forall s, iteration steps 1 s = Ok 2 s)
  /\ (forall s, iteration steps 2 s = Ok 3 s)
  /\ _test_macro (Some 0) a
     = Some (Ok tt (set_test_status (status_text "Macro sent!")
                      (played [Sent (line "click A"); Slept 100;
                               Sent (line "click B"); Slept 100] 2 idle a))).
Proof.
  split; [|split].
  - intros s.
    apply (unknown_step_is_passed_over
             ["Button:A"; "jump"; "%1,2,3"; "Button:B"] 1 "jump" s);
      reflexivity.
  - intros s.
    apply (unknown_step_is_passed_over
             ["Button:A"; "jump"; "%1,2,3"; "Button:B"] 2 "%1,2,3" s);
      reflexivity.
  - vm_compute. reflexivity.
Defined.

(** C2 as worded does not hold: the status label holds the error and no
    step index.  The same two taps fail once at the first step and once at
    the second, and the label reads the same both times, so nothing read
    off the label can be the index of the failing step. *)
Lemma status_holds_no_step_index :
  ~ exists cite : status -> nat,
      forall (a : App) (idx : nat) (macro : Macro) (k : nat) (ak : App)
             (e : exn) (a' r : App),
        switch_connected a = true ->
        is_Some (switch_socket a) ->
        macros a !! idx = Some macro ->
        reaches (steps_of a macro) a k ak ->
        k < List.length (steps_of a macro) ->
        iteration (steps_of a macro) k ak = Raise e a' ->
        _test_macro (Some idx) a = Some (Ok tt r) ->
        cite (test_status_var r) = k.
Proof.
  intros [cite H].
  pose (two := ["Button:A"; "Button:B"]).
  assert (cite (status_error (OSError "timed out")) = 0) as H0.
  { change (status_error (OSError "timed out"))
      with (test_status_var
              (set_test_status (status_error (OSError "timed out"))
                 (jump_app two []))).
    eapply (H (jump_app two [Some "timed out"]) 0 _ 0 _ _ _ _ eq_refl).
    - eexists. reflexivity.
    - reflexivity.
    - apply reaches_start.
    - vm_compute. lia.
    - vm_compute. reflexivity.
    - vm_compute. reflexivity. }
  assert (cite (status_error (OSError "timed out")) = 1) as H1.
  { change (status_error (OSError "timed out"))
      with (test_status_var
              (set_test_status (status_error (OSError "timed out"))
                 (played [Sent (line "click A"); Slept 100] 0 idle
                    (jump_app two [])))).
    eapply (H (jump_app two [None; Some "timed out"]) 0 _ 1 _ _ _ _ eq_refl).
    - eexists. reflexivity.
    - reflexivity.
    - eapply reaches_next;
        [ apply reaches_start | vm_compute; lia | vm_compute; reflexivity ].
    - vm_compute. lia.
    - vm_compute. reflexivity.
    - vm_compute. reflexivity. }
  congruence.
Qed.

(** C4 as worded does not hold: [%40000,0] is neither refused nor clamped;
    [setStick LEFT 40000 0] goes out and the macro is reported sent. *)
Lemma out_of_range_stick_text_is_sent :
  let a := jump_app ["%40000,0"] [] in
  (32767 < 40000)%Z
  /\ _test_macro (Some 0) a
     = Some (Ok tt (set_test_status (status_text "Macro sent!")
                      (played [Sent (line "setStick LEFT 40000 0"); Slept 100]
                         1 idle a))).
Proof. split; [lia | vm_compute; reflexivity]. Qed.

Lemma stick_text_example :
  let steps := ["&-40000, 1_000"] in
  let a := jump_app steps [] in
  iteration steps 0 a
  = Ok 1 (played [Sent (line "setStick RIGHT -40000 1000"); Slept 100] 1 idle a)
  /\ _on_stick_grid_click 40000 (-5) = (32767, -5)%Z.
Proof.
  split; [|reflexivity].
  apply (proj1 stick_text_is_sent_as_read
           ["&-40000, 1_000"] 0 (jump_app ["&-40000, 1_000"] []) idle
           "&" "RIGHT" "-40000, 1_000" "-40000" " 1_000" (-40000)%Z 1000%Z).
  - reflexivity.
  - reflexivity.
  - simpl. auto.
  - reflexivity.
  - reflexivity.
  - reflexivity.
  - unfold writes_ok. simpl. constructor.
Defined.

(** C7 as worded does not hold: after a write that fails the application
    still holds its socket and still counts as connected. *)
Lemma failed_write_keeps_the_connection :
  let a := jump_app ["Button:A"] [Some "timed out"] in
  exists a',
    _send_sysbot_cmd "click A" a = Raise (OSError "timed out") a'
    /\ switch_connected a' = true
    /\ switch_socket a' = Some idle.
Proof. eexists. repeat split. Qed.

Lemma send_example :
  let a := jump_app ["Button:A"] [Some "timed out"] in
  _send_sysbot_cmd "click A" (set_switch_socket None a)
  = Raise (RuntimeError "Not connected") (set_switch_socket None a)
  /\ _send_sysbot_cmd "click A" (set_switch_socket (Some idle) a)
     = Ok tt (played [Sent (line "click A")] 1 idle (set_switch_socket (Some idle) a))
  /\ exists a',
      _send_sysbot_cmd "click A" a = Raise (OSError "timed out") a'
      /\ wire a' = wire a
      /\ switch_connected a' = switch_connected a
      /\ switch_socket a' = Some idle.
Proof.
  split; [|split].
  - apply (proj1 (send_writes_a_line_or_raises "click A" _)). reflexivity.
  - apply (proj1 (proj2 (send_writes_a_line_or_raises "click A" _)) idle).
    + reflexivity.
    + reflexivity.
    + unfold writes_ok. simpl. constructor.
  - apply (proj2 (proj2 (send_writes_a_line_or_raises "click A" _))
             {| pending := [Some "timed out"] |} "timed out" []);
      reflexivity.
Defined.

(** C3 as worded does not hold: the clone's steps are not a deep copy.
    After cloning ["Jump"], appending [Wait:1] to the step list of the clone
    changes the steps of the original. *)
Lemma clone_is_not_a_deep_copy :
  ~ forall (a a' : App) (idx : nat) (orig clone : Macro) (l : loc) (x : string),
      selected_index a = Some idx ->
      _clone_macro a = Ok tt a' ->
      macros a' !! idx = Some orig ->
      macros a' !! (idx + 1) = Some clone ->
      m_steps clone = Some l ->
      steps_of (set_heap (list_append l x (heap a')) a') orig = steps_of a' orig.
Proof.
  intros H.
  specialize (H (jump_app ["Button:B"] []) _ 0 _ _ 0 "Wait:1"
                eq_refl eq_refl eq_refl eq_refl eq_refl).
  vm_compute in H. discriminate H.
Qed.

Lemma clone_example :
  let a := jump_app ["Button:B"] [] in
  exists a' clone,
    _clone_macro a = Ok tt a'
    /\ macros a' !! 1 = Some clone
    /\ m_name clone = Some "Jump (Copy)"
    /\ m_trigger clone = Some "!jump"
    /\ m_steps clone = Some 0
    /\ heap a' = heap a.
Proof.
  intros a.
  destruct (clone_copies_the_dictionary a 0
              {| m_name := Some "Jump"; m_trigger := Some "!jump";
                 m_chat_command := None; m_steps := Some 0 |} "Jump"
              eq_refl eq_refl eq_refl)
    as (a' & clone & Hrun & _ & Hat & _ & _ & Hheap & Hn & Ht & _ & Hs & _).
  exists a', clone. repeat split; assumption.
Defined.

(** C5 as worded does not hold: a record read with a trigger and a
    different [chat_command] has both, and they differ, after the load. *)
Lemma import_keeps_a_differing_alias :
  ~ forall (data : list Macro) (a : App) (j : nat) (m' : Macro) (t c : string),
      macros (_import_macros data a) !! (List.length (macros a) + j) = Some m' ->
      m_trigger m' = Some t ->
      m_chat_command m' = Some c ->
      t = c.
Proof.
  intros H.
  specialize (H [both_fields] (jump_app ["Button:B"] []) 0 both_fields
                "!dash" "!run" eq_refl eq_refl eq_refl).
  discriminate H.
Qed.

Lemma import_example :
  let a := jump_app ["Button:B"] [] in
  exists m',
    macros (_import_macros [alias_only] a) !! 1 = Some m'
    /\ m_chat_command m' = Some "!run"
    /\ m_trigger m' = Some "!run".
Proof.
  intros a.
  destruct (import_fills_a_missing_trigger [alias_only] a 0 alias_only eq_refl)
    as (_ & m' & Hat & _ & _ & Hc & Ht).
  exists m'. repeat split; assumption.
Defined.

(** C8 as worded does not hold for every step list: a step that holds a
    line break, as a macro file can bring one in, takes two lines of the
    interpreted text, so the one step of this list shows as two lines. *)
Lemma step_with_a_line_break_takes_two_lines :
  ~ forall steps : list string,
      steps <> [] ->
      List.length (Py.split "010" (snd (_update_preview steps)))
      = List.length steps.
Proof.
  intros H.
  specialize (H ["Button:A" ++ newline ++ "B"] ltac:(discriminate)).
  vm_compute in H. discriminate H.
Qed.

Lemma preview_example :
  let steps := ["Button:A"; "Wait:250"] in
  fst (_update_preview steps) = "Button:A,Wait:250"
  /\ Py.split "010" (snd (_update_preview steps)) = ["Press A"; "Wait 250 ms"]
  /\ List.length (Py.split "010" (snd (_update_preview steps))) = 2.
Proof.
  intros steps.
  destruct (preview_has_one_line_per_step steps) as (Hraw & _ & _ & _ & Hlines).
  destruct Hlines as [Hsplit Hlen].
  - discriminate.
  - repeat constructor.
  - repeat split; assumption.
Defined.


End Examples.

(** * More of the code *)

(** ** Playback, step by step *)

Section MoreSteps.

Lemma is_ascii_upper (s : string) :
  Py.is_ascii s = true -> Py.is_ascii (Py.upper s) = true.
Proof.
  induction s as [|c r IH]; [reflexivity|].
  change (Py.upper (String c r)) with (Py.upper_char c ++ Py.upper r).
  rewrite is_ascii_app. unfold Py.is_ascii at 1. simpl.
  intros H. apply andb_true_iff in H as [Hc Hr].
  rewrite (IH Hr), andb_true_r. clear IH Hr.
  destruct c as [[] [] [] [] [] [] [] []];
    solve [reflexivity | discriminate Hc].
Qed.

Lemma split_one_field (sep : ascii) (s : string) :
  forallb (fun c => negb (Ascii.eqb c sep)) (list_ascii_of_string s) = true ->
  Py.split sep s = [s].
Proof.
  induction s as [|c r IH]; simpl; [reflexivity|].
  intros H. apply andb_true_iff in H as [Hc Hr].
  apply negb_true_iff in Hc. rewrite Hc, (IH Hr). reflexivity.
Qed.

Lemma split_first_field (sep : ascii) (s t : string) :
  forallb (fun c => negb (Ascii.eqb c sep)) (list_ascii_of_string s) = true ->
  Py.split sep (s ++ String sep t) = s :: Py.split sep t.
Proof.
  induction s as [|c r IH]; simpl.
  - intros _. now rewrite Ascii.eqb_refl.
  - intros H. apply andb_true_iff in H as [Hc Hr].
    apply negb_true_iff in Hc. rewrite Hc, (IH Hr). reflexivity.
Qed.

(** What [str] writes holds no comma. *)
Lemma str_no_comma (z : Z) :
  forallb (fun c => negb (Ascii.eqb c ",")) (list_ascii_of_string (Py.str z)) = true.
Proof.
  assert (HN : forall n, forallb (fun c => negb (Ascii.eqb c ","))
                           (list_ascii_of_string (Py.str_nat n)) = true).
  { intros n. apply digits_of_forallb; [|reflexivity].
    intros d Hd. destruct (digit_cases d Hd) as [E|E];
      repeat (destruct E as [E|E]); rewrite E; reflexivity. }
  destruct z; [reflexivity | apply HN | simpl; apply HN].
Qed.

Lemma split_pair (x y : Z) :
  Py.split "," (Py.str x ++ "," ++ Py.str y) = [Py.str x; Py.str y].
Proof.
  change ("," ++ Py.str y) with (String "," (Py.str y)).
  rewrite split_first_field by apply str_no_comma.
  now rewrite split_one_field by apply str_no_comma.
Qed.

Variables (steps : list string) (i : nat) (a : App).

(** The branch of the loop a token takes, by its prefix. *)
Lemma iteration_button (name : string) :
  steps !! i = Some ("Button:" ++ name) ->
  iteration steps i a
  = (if next_is_wait steps i then
       _send_sysbot_cmd ("press " ++ Py.upper name) ;;;
       ms <- int_of (Py.slice_from 5 (default EmptyString (steps !! (i + 1)))) ;;
       sleep_ms ms ;;;
       _send_sysbot_cmd ("release " ++ Py.upper name) ;;;
       ret (i + 2)
     else
       _send_sysbot_cmd ("click " ++ Py.upper name) ;;;
       sleep_ms 100 ;;;
       ret (i + 1)) a.
Proof.
  intros Hi. unfold iteration. rewrite Hi, (startswith_app "Button:").
  change (Py.slice_from 7 ("Button:" ++ name)) with name. reflexivity.
Qed.

Lemma iteration_hold (name : string) :
  steps !! i = Some ("Hold:" ++ name) ->
  iteration steps i a
  = (_send_sysbot_cmd ("press " ++ Py.upper name) ;;; ret (i + 1)) a.
Proof.
  intros Hi. unfold iteration. rewrite Hi.
  change (Py.startswith ("Hold:" ++ name) "Button:") with false.
  rewrite (startswith_app "Hold:").
  change (Py.slice_from 5 ("Hold:" ++ name)) with name. reflexivity.
Qed.

Lemma iteration_release (name : string) :
  steps !! i = Some ("Release:" ++ name) ->
  iteration steps i a
  = (_send_sysbot_cmd ("release " ++ Py.upper name) ;;; ret (i + 1)) a.
Proof.
  intros Hi. unfold iteration. rewrite Hi.
  change (Py.startswith ("Release:" ++ name) "Button:") with false.
  change (Py.startswith ("Release:" ++ name) "Hold:") with false.
  rewrite (startswith_app "Release:").
  change (Py.slice_from 8 ("Release:" ++ name)) with name. reflexivity.
Qed.

Lemma iteration_percent (payload : string) :
  steps !! i = Some ("%" ++ payload) ->
  iteration steps i a = (stick_branch "LEFT" payload ;;; ret (i + 1)) a.
Proof.
  intros Hi. unfold iteration. rewrite Hi.
  change (Py.startswith ("%" ++ payload) "Button:") with false.
  change (Py.startswith ("%" ++ payload) "Hold:") with false.
  change (Py.startswith ("%" ++ payload) "Release:") with false.
  rewrite (startswith_app "%").
  change (Py.slice_from 1 ("%" ++ payload)) with payload. reflexivity.
Qed.

Lemma iteration_amp (payload : string) :
  steps !! i = Some ("&" ++ payload) ->
  iteration steps i a = (stick_branch "RIGHT" payload ;;; ret (i + 1)) a.
Proof.
  intros Hi. unfold iteration. rewrite Hi.
  change (Py.startswith ("&" ++ payload) "Button:") with false.
  change (Py.startswith ("&" ++ payload) "Hold:") with false.
  change (Py.startswith ("&" ++ payload) "Release:") with false.
  change (Py.startswith ("&" ++ payload) "%") with false.
  rewrite (startswith_app "&").
  change (Py.slice_from 1 ("&" ++ payload)) with payload. reflexivity.
Qed.


Variable sk : socket.
Hypothesis Hsock : switch_socket a = Some sk.

(** X1: a hold is a press and a release step a release, with no settle.
    At a cursor on [Hold:b] one turn of the loop writes [press b] and
    nothing else, and at a cursor on [Release:b] it writes [release b] and
    nothing else; neither sleeps, and the cursor moves on by one. *)
Theorem hold_and_release_do_not_settle (b : string) :
  In b button_names ->
  writes_ok 1 sk ->
  (steps !! i = Some ("Hold:" ++ b) ->
   iteration steps i a = Ok (i + 1) (played [Sent (line ("press " ++ b))] 1 sk a))
  /\ (steps !! i = Some ("Release:" ++ b) ->
      iteration steps i a = Ok (i + 1) (played [Sent (line ("release " ++ b))] 1 sk a)).
Proof.
  intros Hb Hok. destruct (button_name_plain b Hb) as [Hup Hasc].
  split; intros Hi.
  - rewrite (iteration_hold b Hi), Hup.
    rewrite <- (played_nil sk a Hsock) at 1.
    erewrite bind_step; [reflexivity|].
    apply send_played; [|assumption]. now rewrite is_ascii_app, Hasc.
  - rewrite (iteration_release b Hi), Hup.
    rewrite <- (played_nil sk a Hsock) at 1.
    erewrite bind_step; [reflexivity|].
    apply send_played; [|assumption]. now rewrite is_ascii_app, Hasc.
Qed.

(** X2: the name after [Button:] is sent in upper case and is not checked.
    For any ASCII text [name], listed as a button or not, a tap with no
    wait after it writes [click] and the name in upper case, then settles
    100 ms. *)
Theorem tap_sends_the_name_in_upper_case (name : string) :
  steps !! i = Some ("Button:" ++ name) ->
  next_is_wait steps i = false ->
  Py.is_ascii name = true ->
  writes_ok 1 sk ->
  iteration steps i a
  = Ok (i + 1) (played [Sent (line ("click " ++ Py.upper name)); Slept 100] 1 sk a).
Proof.
  intros Hi Hn Hasc Hok. rewrite (iteration_button name Hi), Hn.
  rewrite <- (played_nil sk a Hsock) at 1.
  erewrite bind_step;
    [| apply send_played;
       [now rewrite is_ascii_app, is_ascii_upper | assumption] ].
  erewrite bind_step; [reflexivity|]. apply sleep_played. lia.
Qed.

(** X3: a wait that cannot be slept leaves the button pressed.  When the
    step after [Button:b] starts with [Wait:] but what follows is refused
    by [int], or is a negative number, or is a number beyond [sleep_max],
    [press b] is written, the turn raises, and [release b] is not written.
    The exception is the [ValueError] of [int], or that of [time.sleep] for
    a negative length within [sleep_max], or [OverflowError] for a length
    beyond it on either side of zero. *)
Theorem bad_wait_leaves_the_button_pressed (b w : string) :
  steps !! i = Some ("Button:" ++ b) ->
  In b button_names ->
  steps !! (i + 1) = Some ("Wait:" ++ w) ->
  writes_ok 1 sk ->
  (Py.int w = None ->
   iteration steps i a
   = Raise (ValueError_int w) (played [Sent (line ("press " ++ b))] 1 sk a))
  /\ (forall ms, Py.int w = Some ms -> (ms < 0)%Z ->
      iteration steps i a
      = Raise (if (ms <? - sleep_max)%Z then OverflowError else ValueError_sleep)
              (played [Sent (line ("press " ++ b))] 1 sk a))
  /\ (forall ms, Py.int w = Some ms -> (sleep_max < ms)%Z ->
      iteration steps i a
      = Raise OverflowError (played [Sent (line ("press " ++ b))] 1 sk a)).
Proof.
  intros Hi Hb Hn Hok. destruct (button_name_plain b Hb) as [Hup Hasc].
  assert (next_is_wait steps i = true) as Hnw.
  { unfold next_is_wait. rewrite Hn. apply startswith_app. }
  rewrite (iteration_button b Hi), Hnw, Hup, Hn.
  change (Py.slice_from 5 (default EmptyString (Some ("Wait:" ++ w)))) with w.
  assert (_send_sysbot_cmd ("press " ++ b) (played [] 0 sk a)
          = Ok tt (played [Sent (line ("press " ++ b))] 1 sk a)) as Hsend.
  { apply send_played; [|assumption]. now rewrite is_ascii_app, Hasc. }
  rewrite (played_nil sk a Hsock) in Hsend.
  split; [|split].
  - intros Hint. rewrite (bind_step _ _ _ _ _ Hsend).
    apply bind_raise. unfold int_of. now rewrite Hint.
  - intros ms Hint Hneg. rewrite (bind_step _ _ _ _ _ Hsend).
    erewrite bind_step; [| apply int_of_Some, Hint ].
    apply bind_raise. now apply sleep_negative.
  - intros ms Hint Hbig. rewrite (bind_step _ _ _ _ _ Hsend).
    erewrite bind_step; [| apply int_of_Some, Hint ].
    apply bind_raise. now apply sleep_overflow.
Qed.

(** X4: a stick step of the editor plays as the same position.  The token
    [_add_step] builds for a stick move to [(x, y)] is played as
    [setStick], on [LEFT] when the side is ["LEFT"] and on [RIGHT]
    otherwise, with [x] and [y] as they were, followed by the 100 ms
    settle. *)
Theorem editor_stick_step_plays_back (side tok : string) (x y : Z) :
  _add_step (PanelStickMove side x y) = Some tok ->
  steps !! i = Some tok ->
  writes_ok 1 sk ->
  iteration steps i a
  = Ok (i + 1)
       (played [Sent (line ("setStick "
                            ++ (if String.eqb side "LEFT" then "LEFT" else "RIGHT")
                            ++ " " ++ Py.str x ++ " " ++ Py.str y));
                Slept 100] 1 sk a).
Proof.
  cbn [_add_step]. intros Htok Hi Hok.
  destruct (Py.str_fits x) eqn:Hx; [|discriminate].
  destruct (Py.str_fits y) eqn:Hy; [|discriminate]. cbn [andb] in Htok.
  destruct (String.eqb side "LEFT"); injection Htok as <-.
  - rewrite (iteration_percent _ Hi).
    apply (stick_branch_sends _ _ (Py.str x) (Py.str y));
      auto using split_pair, int_str.
  - rewrite (iteration_amp _ Hi).
    apply (stick_branch_sends _ _ (Py.str x) (Py.str y));
      auto using split_pair, int_str.
Qed.

End MoreSteps.

Section MoreWaits.


End MoreWaits.

(** ** What playback leaves alone *)

Section Invariant.

Lemma follows_refl (a : App) : follows a a.
Proof.
  repeat split; auto. exists []. split; [now rewrite app_nil_r | constructor].
Qed.

Lemma follows_trans (a b c : App) : follows a b -> follows b c -> follows a c.
Proof.
  intros (M1 & H1 & S1 & C1 & K1 & e1 & W1 & F1) (M2 & H2 & S2 & C2 & K2 & e2 & W2 & F2).
  repeat split; try congruence; try tauto.
  exists (e1 ++ e2)%list. split.
  - now rewrite W2, W1, app_assoc.
  - now apply Forall_app.
Qed.

Lemma keeps_ret {A} (x : A) : keeps (ret x).
Proof. intros a. apply follows_refl. Qed.

Lemma keeps_raise {A} (e : exn) : keeps (@raise A e).
Proof. intros a. apply follows_refl. Qed.

Lemma keeps_bind {A B} (m : M A) (k : A -> M B) :
  keeps m -> (forall x, keeps (k x)) -> keeps (bind m k).
Proof.
  intros Hm Hk a. unfold bind. specialize (Hm a).
  destruct (m a) as [x a1|e a1]; [|exact Hm].
  eapply follows_trans; [exact Hm | apply Hk].
Qed.

Lemma keeps_send (cmd : string) : keeps (_send_sysbot_cmd cmd).
Proof.
  intros a. unfold _send_sysbot_cmd.
  destruct (switch_socket a) as [sk|] eqn:Hs; [|apply follows_refl].
  destruct (Py.encode_ascii (cmd ++ newline)) as [data|] eqn:He;
    [|apply follows_refl].
  unfold Py.encode_ascii in He.
  destruct (Py.is_ascii (cmd ++ newline)) eqn:Ha; [|discriminate].
  injection He as <-. rewrite is_ascii_app in Ha.
  apply andb_true_iff in Ha as [Ha _].
  destruct (sendall sk) as [[msg|] sk']; simpl;
    repeat split; auto; rewrite ?Hs; eauto.
  - exists []. split; [now rewrite app_nil_r | constructor].
  - exists [Sent (list_byte_of_string (cmd ++ newline))]. split; [reflexivity|].
    repeat constructor. exists cmd. auto.
Qed.

Lemma keeps_sleep (ms : Z) : keeps (sleep_ms ms).
Proof.
  intros a. unfold sleep_ms.
  destruct (_ || _); [apply follows_refl|].
  destruct (Z.ltb_spec ms 0); [apply follows_refl|].
  destruct (sleep_max <? clock_ms a + ms)%Z; [apply follows_refl|].
  simpl. repeat split; auto.
  exists [Slept ms]. split; [reflexivity|]. repeat constructor. exact H.
Qed.

Lemma keeps_int_of (s : string) : keeps (int_of s).
Proof.
  unfold int_of. destruct (Py.int s); [apply keeps_ret | apply keeps_raise].
Qed.

Lemma keeps_stick_branch (side payload : string) : keeps (stick_branch side payload).
Proof.
  unfold stick_branch.
  destruct (Py.split "," payload) as [|sx [|sy [|sz l]]]; try apply keeps_ret.
  repeat (apply keeps_bind; [|intros ?]);
    auto using keeps_int_of, keeps_send, keeps_sleep.
Qed.

Lemma keeps_iteration (steps : list string) (i : nat) : keeps (iteration steps i).
Proof.
  unfold iteration. destruct (steps !! i) as [step|]; [|apply keeps_raise].
  repeat match goal with
         | |- context [if ?b then _ else _] => destruct b
         end;
    repeat (apply keeps_bind; [|intros ?]);
    auto using keeps_int_of, keeps_send, keeps_sleep, keeps_stick_branch,
               keeps_ret.
Qed.

Lemma loop_follows (fuel : nat) :
  forall steps i a r, loop fuel steps i a = Some r -> follows a (state_of r).
Proof.
  induction fuel as [|fuel IH]; intros steps i a r; simpl;
    destruct (Nat.ltb i (List.length steps)); try discriminate;
    try (intros [= <-]; apply follows_refl).
  pose proof (keeps_iteration steps i a) as Hk.
  destruct (iteration steps i a) as [i' a'|e a'].
  - intros Hl. eapply follows_trans; [exact Hk | eapply IH; exact Hl].
  - intros [= <-]. exact Hk.
Qed.

(** [_test_macro] comes back, in a state that follows the one before. *)
Lemma test_macro_follows (curselection : option nat) (a : App) :
  exists r, _test_macro curselection a = Some r /\ follows a (state_of r).
Proof.
  destruct (_test_macro_total curselection a) as [r Hr].
  exists r. split; [exact Hr|].
  unfold _test_macro in Hr.
  destruct (negb (switch_connected a) || _);
    [injection Hr as <-; exact (follows_refl a)|].
  destruct curselection as [idx|]; [|injection Hr as <-; exact (follows_refl a)].
  destruct (macros a !! idx) as [m|]; [|injection Hr as <-; exact (follows_refl a)].
  destruct (steps_of a m) as [|s l]; [injection Hr as <-; exact (follows_refl a)|].
  destruct (loop (List.length (s :: l)) (s :: l) 0 a) as [[u a'|e a']|] eqn:Hl;
    [| |discriminate];
    injection Hr as <-; exact (loop_follows _ _ _ _ _ Hl).
Qed.

(** X6: playback only adds to the log.  [_test_macro] always comes back,
    and however it ends (sent, refused, or stopped by an exception) the
    macros, the store of step lists and the selection are the ones before
    the call, the connection flag is unchanged, a socket is held after it
    exactly when one was held before, and the log is the log before the
    call followed by events each of which is a write of ASCII text that
    ends with the newline [_send_sysbot_cmd] adds, or a sleep of a length
    that is not negative. *)
Theorem playback_only_adds_to_the_log (curselection : option nat) (a : App) :
  exists r, _test_macro curselection a = Some r /\ follows a (state_of r).
Proof. apply test_macro_follows. Qed.

End Invariant.

(** ** A failed write *)

Section Failures.

Lemma sent_count_app (l l' : list event) :
  sent_count (l ++ l') = sent_count l + sent_count l'.
Proof.
  induction l as [|[d|ms] l IH]; simpl; [reflexivity | now rewrite IH | exact IH].
Qed.

Lemma not_yet_failed_refl (n : nat) (msg : string) (rest : list (option string))
    (a : App) :
  fails_after n msg rest a -> not_yet_failed n msg rest a a.
Proof. intros H. exists n. split; [lia|]. split; [exact H | lia]. Qed.

Lemma stops_ret {A} (x : A) : stops_at_failure (ret x).
Proof. intros n msg rest a H. now apply not_yet_failed_refl. Qed.

Lemma stops_raise {A} (e : exn) : stops_at_failure (@raise A e).
Proof. intros n msg rest a H. left. now apply not_yet_failed_refl. Qed.

Lemma stops_bind {A B} (m : M A) (k : A -> M B) :
  stops_at_failure m -> (forall x, stops_at_failure (k x)) ->
  stops_at_failure (bind m k).
Proof.
  intros Hm Hk n msg rest a Hf. unfold bind. specialize (Hm n msg rest a Hf).
  destruct (m a) as [x a1|e a1]; [|exact Hm].
  destruct Hm as (n1 & Hle1 & Hf1 & Hc1).
  specialize (Hk x n1 msg rest a1 Hf1).
  destruct (k x a1) as [y a2|e a2].
  - destruct Hk as (n2 & Hle2 & Hf2 & Hc2).
    exists n2. split; [lia|]. split; [exact Hf2 | lia].
  - destruct Hk as [(n2 & Hle2 & Hf2 & Hc2)|(He & Hs & Hc2)].
    + left. exists n2. split; [lia|]. split; [exact Hf2 | lia].
    + right. split; [exact He|]. split; [exact Hs | lia].
Qed.

(** The write itself: it goes through while the failure is ahead, and
    raises the socket's error when the failure is next. *)
Lemma stops_send (cmd : string) : stops_at_failure (_send_sysbot_cmd cmd).
Proof.
  intros n msg rest a Hf. unfold _send_sysbot_cmd. rewrite Hf.
  destruct (Py.encode_ascii (cmd ++ newline)) as [data|];
    [|left; now apply not_yet_failed_refl].
  destruct n as [|n]; unfold sendall; simpl.
  - right. split; [reflexivity|]. split; [reflexivity | simpl; lia].
  - exists n. split; [lia|]. split; [reflexivity|].
    simpl. rewrite sent_count_app. simpl. lia.
Qed.

Lemma stops_sleep (ms : Z) : stops_at_failure (sleep_ms ms).
Proof.
  intros n msg rest a Hf. unfold sleep_ms.
  destruct (_ || _); [left; now apply not_yet_failed_refl|].
  destruct (ms <? 0)%Z; [left; now apply not_yet_failed_refl|].
  destruct (sleep_max <? clock_ms a + ms)%Z;
    [left; now apply not_yet_failed_refl|].
  exists n. split; [lia|]. split; [exact Hf|].
  simpl. rewrite sent_count_app. simpl. lia.
Qed.

Lemma stops_int_of (s : string) : stops_at_failure (int_of s).
Proof.
  unfold int_of. destruct (Py.int s); [apply stops_ret | apply stops_raise].
Qed.

Lemma stops_stick_branch (side payload : string) :
  stops_at_failure (stick_branch side payload).
Proof.
  unfold stick_branch.
  destruct (Py.split "," payload) as [|sx [|sy [|sz l]]]; try apply stops_ret.
  repeat (apply stops_bind; [|intros ?]);
    auto using stops_int_of, stops_send, stops_sleep.
Qed.

Lemma stops_iteration (steps : list string) (i : nat) :
  stops_at_failure (iteration steps i).
Proof.
  unfold iteration. destruct (steps !! i) as [step|]; [|apply stops_raise].
  repeat match goal with
         | |- context [if ?b then _ else _] => destruct b
         end;
    repeat (apply stops_bind; [|intros ?]);
    auto using stops_int_of, stops_send, stops_sleep, stops_stick_branch,
               stops_ret.
Qed.

(** The loop as a whole stops at the failing write too. *)
Lemma loop_stops (fuel : nat) :
  forall steps i n msg rest a,
    fails_after n msg rest a ->
    match loop fuel steps i a with
    | Some (Ok _ a') => not_yet_failed n msg rest a a'
    | Some (Raise e a') =>
        not_yet_failed n msg rest a a' \/ failed_at_write n msg rest a e a'
    | None => True
    end.
Proof.
  induction fuel as [|fuel IH]; intros steps i n msg rest a Hf; simpl;
    destruct (Nat.ltb i (List.length steps));
    try exact I; try (now apply not_yet_failed_refl).
  pose proof (stops_iteration steps i n msg rest a Hf) as Hit.
  destruct (iteration steps i a) as [i' a1|e a1]; [|exact Hit].
  destruct Hit as (n1 & Hle1 & Hf1 & Hc1).
  specialize (IH steps i' n1 msg rest a1 Hf1).
  destruct (loop fuel steps i' a1) as [[u a2|e a2]|]; [| |exact I].
  - destruct IH as (n2 & Hle2 & Hf2 & Hc2).
    exists n2. split; [lia|]. split; [exact Hf2 | lia].
  - destruct IH as [(n2 & Hle2 & Hf2 & Hc2)|(He & Hs & Hc2)].
    + left. exists n2. split; [lia|]. split; [exact Hf2 | lia].
    + right. split; [exact He|]. split; [exact Hs | lia].
Qed.

(** A loop that ends with an exception ends in the turn that raised it. *)
Lemma loop_raise_reaches (fuel : nat) :
  forall steps a0 i a e a',
    reaches steps a0 i a ->
    loop fuel steps i a = Some (Raise e a') ->
    exists k ak,
      reaches steps a0 k ak /\ k < List.length steps
      /\ iteration steps k ak = Raise e a'.
Proof.
  induction fuel as [|fuel IH]; intros steps a0 i a e a' Hr; simpl;
    destruct (Nat.ltb_spec i (List.length steps)); try discriminate.
  destruct (iteration steps i a) as [i' a1|e1 a1] eqn:Hit.
  - apply IH. eapply reaches_next; eauto.
  - intros [= <- <-]. eauto.
Qed.

(** A write with the failure next. *)
Lemma send_fails (cmd msg : string) (rest : list (option string)) (a : App) :
  fails_after 0 msg rest a ->
  Py.is_ascii cmd = true ->
  _send_sysbot_cmd cmd a
  = Raise (OSError msg) (set_switch_socket (Some {| pending := rest |}) a).
Proof.
  intros Hf Hc. unfold _send_sysbot_cmd. rewrite Hf.
  rewrite encode_ascii_ok by (rewrite is_ascii_app, Hc; reflexivity).
  reflexivity.
Qed.

(** C2, as the code has it: a failed write ends playback on the spot, and
    the label holds the error alone.  Take a socket that lets [n] writes
    through and fails the next with [msg].  [_test_macro] always comes
    back.  Either playback never tried the failing write (it ended, or was
    stopped by something else, with that write still ahead), or it ended in
    the turn of the loop that tried it: that turn raised [OSError(msg)],
    the [n] writes before it are on the wire and none after it, the socket
    is past the failure, and the end state is the state that turn left with
    the status label set to [f"Error: {e}"].  And the failing write is
    tried as soon as playback gets, with the failure next, to a tap, hold
    or release step of a listed button: playback then ends right there,
    with the log and everything else as they were when it got to that
    step. *)
Theorem failed_write_ends_playback (a : App) (idx : nat) (macro : Macro)
    (n : nat) (msg : string) (rest : list (option string)) :
  switch_connected a = true ->
  fails_after n msg rest a ->
  macros a !! idx = Some macro ->
  (exists r,
      _test_macro (Some idx) a = Some (Ok tt r)
      /\ (not_yet_failed n msg rest a r
          \/ exists k ak a',
               reaches (steps_of a macro) a k ak
               /\ k < List.length (steps_of a macro)
               /\ iteration (steps_of a macro) k ak = Raise (OSError msg) a'
               /\ failed_at_write n msg rest a (OSError msg) a'
               /\ r = set_test_status (status_error (OSError msg)) a'))
  /\ (forall k ak b step,
         reaches (steps_of a macro) a k ak ->
         fails_after 0 msg rest ak ->
         steps_of a macro !! k = Some step ->
         In step [button_token b; "Hold:" ++ b; "Release:" ++ b] ->
         In b button_names ->
         _test_macro (Some idx) a
         = Some (Ok tt (set_test_status (status_error (OSError msg))
                          (set_switch_socket (Some {| pending := rest |}) ak)))).
Proof.
  intros Hconn Hf Hm.
  assert (is_Some (switch_socket a)) as Hsk by (rewrite Hf; eauto).
  split.
  - unfold _test_macro. rewrite Hconn, Hm.
    rewrite (bool_decide_eq_true_2 _ Hsk). cbn [negb orb].
    destruct (steps_of a macro) as [|s l] eqn:E.
    { eexists. split; [reflexivity|]. left.
      exact (not_yet_failed_refl n msg rest a Hf). }
    destruct (loop_total (List.length (s :: l)) (s :: l) 0 a) as [res Hres];
      [lia|].
    pose proof (loop_stops (List.length (s :: l)) (s :: l) 0 n msg rest a Hf)
      as Hstop.
    rewrite Hres in *. destruct res as [u a'|e a'].
    + eexists. split; [reflexivity|]. left. exact Hstop.
    + eexists. split; [reflexivity|].
      destruct Hstop as [Hnot|Hhit]; [left; exact Hnot|]. right.
      destruct (loop_raise_reaches _ _ a 0 a e a' (reaches_start _ _) Hres)
        as (k & ak & Hreach & Hk & Hit).
      pose proof Hhit as (-> & _).
      exists k, ak, a'. auto.
  - intros k ak b step Hreach Hf0 Hk Hstep Hb.
    destruct (button_name_plain b Hb) as [Hup Hasc].
    apply (raise_ends_playback a idx macro k ak); auto.
    + apply lookup_lt_Some in Hk. exact Hk.
    + destruct Hstep as [<-|[<-|[<-|[]]]].
      * rewrite (iteration_button _ _ _ b Hk), Hup.
        destruct (next_is_wait (steps_of a macro) k);
          apply bind_raise, send_fails;
          [exact Hf0 | now rewrite is_ascii_app, Hasc
          | exact Hf0 | now rewrite is_ascii_app, Hasc].
      * rewrite (iteration_hold _ _ _ b Hk), Hup.
        apply bind_raise, send_fails;
          [exact Hf0 | now rewrite is_ascii_app, Hasc].
      * rewrite (iteration_release _ _ _ b Hk), Hup.
        apply bind_raise, send_fails;
          [exact Hf0 | now rewrite is_ascii_app, Hasc].
Qed.

End Failures.

Section FailureExamples.

(** Five taps and a socket whose third write times out: two clicks are on
    the wire, the third step raises, the last two steps are never tried. *)
Lemma third_write_fails_example :
  let a := jump_app five_taps [None; None; Some "timed out"] in
  let a2 := played [Sent (line "click A"); Slept 100;
                    Sent (line "click B"); Slept 100] 2
              {| pending := [None; None; Some "timed out"] |} a in
  _test_macro (Some 0) a
  = Some (Ok tt (set_test_status (status_error (OSError "timed out"))
                   (set_switch_socket (Some idle) a2)))
  /\ exists r,
      _test_macro (Some 0) a = Some (Ok tt r)
      /\ (not_yet_failed 2 "timed out" [] a r
          \/ exists k ak a',
               reaches five_taps a k ak
               /\ k < List.length five_taps
               /\ iteration five_taps k ak = Raise (OSError "timed out") a'
               /\ failed_at_write 2 "timed out" [] a (OSError "timed out") a'
               /\ r = set_test_status (status_error (OSError "timed out")) a').
Proof.
  intros a a2.
  pose proof (failed_write_ends_playback a 0 _ 2 "timed out" []
                eq_refl eq_refl eq_refl) as [Hends Htried].
  split.
  - apply (Htried 2 a2 "X" "Button:X").
    + eapply reaches_next;
        [ eapply reaches_next;
          [ apply reaches_start | vm_compute; lia | vm_compute; reflexivity ]
        | vm_compute; lia | vm_compute; reflexivity ].
    + reflexivity.
    + reflexivity.
    + simpl. auto.
    + simpl. auto.
  - exact Hends.
Defined.

End FailureExamples.

(** ** The connection and the manual controls *)

Section Connection.

(** X7: a disconnect stops everything, and a second one changes nothing.
    After [_disconnect_switch] there is no socket and the flag is down,
    whatever the state before; the macros and the log are untouched;
    disconnecting again gives the same state; and from then on
    [_test_macro] and the manual button only set their label to
    [Not connected to Switch!], and [_send_sysbot_cmd] raises
    [RuntimeError("Not connected")], none of them writing anything. *)
Theorem disconnect_stops_everything (a : App) :
  let a' := fst (_disconnect_switch a) in
  switch_socket a' = None /\ switch_connected a' = false
  /\ macros a' = macros a /\ heap a' = heap a /\ wire a' = wire a
  /\ _disconnect_switch a' = (a', conn_text "Disconnected")
  /\ (forall cur,
         _test_macro cur a'
         = Some (Ok tt (set_test_status (status_text "Not connected to Switch!") a')))
  /\ (forall btn,
         _manual_click_button btn a' = (a', status_text "Not connected to Switch!"))
  /\ (forall cmd,
         _send_sysbot_cmd cmd a' = Raise (RuntimeError "Not connected") a').
Proof. repeat split. Qed.

Lemma follows_link (a a' : App) :
  follows a a' -> link_consistent a -> link_consistent a'.
Proof.
  intros (_ & _ & _ & Hc & Hs & _). unfold link_consistent. rewrite Hc.
  intros ->. apply bool_decide_ext. tauto.
Qed.

Lemma follows_selection (a a' : App) :
  follows a a' -> selection_in_range a -> selection_in_range a'.
Proof.
  intros (Hm & _ & Hsel & _). unfold selection_in_range.
  now rewrite Hm, Hsel.
Qed.

Lemma manual_send_follows (side sent : string) (st : ManualSticks) (a : App) :
  follows a (fst (manual_stick_send side sent st a)).
Proof.
  unfold manual_stick_send. destruct (connected a); [|apply follows_refl].
  match goal with
  | |- context [_send_sysbot_cmd ?c a] =>
      pose proof (keeps_send c a) as H; destruct (_send_sysbot_cmd c a)
  end; exact H.
Qed.

Lemma manual_click_follows (btn : string) (a : App) :
  follows a (fst (_manual_click_button btn a)).
Proof.
  unfold _manual_click_button. destruct (connected a); [|apply follows_refl].
  pose proof (keeps_send ("click " ++ btn) a) as H.
  destruct (_send_sysbot_cmd ("click " ++ btn) a); exact H.
Qed.

Lemma refresh_selection (ui : App * Editor) :
  link_consistent (fst ui) ->
  selection_in_range (fst ui) ->
  link_consistent (fst (_refresh_macro_list ui))
  /\ selection_in_range (fst (_refresh_macro_list ui)).
Proof.
  intros Hl Hs. unfold _refresh_macro_list.
  destruct (selected_index (fst ui)) as [idx|];
    [destruct (macros (fst ui) !! idx)|]; simpl; auto;
    (split; [exact Hl | intros ? [=]]).
Qed.

(** Both invariants hold in every state the application gets to. *)
Lemma reachable_sound (a : App) :
  reachable a -> link_consistent a /\ selection_in_range a.
Proof.
  induction 1 as
    [ a Hm Hsel Hs Hc
    | ip port dial a _ [IHl IHs]
    | a _ [IHl IHs]
    | cur a r _ [IHl IHs] Hrun
    | btn a _ [IHl IHs]
    | x y side st a _ [IHl IHs]
    | side st a _ [IHl IHs]
    | ed a _ [IHl IHs]
    | a _ [IHl IHs]
    | data a _ [IHl IHs]
    | cur ed a ui _ [IHl IHs] Hrun
    | ed a _ [IHl IHs]
    | cur ed a ui _ [IHl IHs] Hrun
    | ed a ui _ [IHl IHs] Hrun
    | ed a ui _ [IHl IHs] Hrun ].
  - split; [unfold link_consistent; now rewrite Hs, Hc|].
    intros idx. now rewrite Hsel.
  - unfold _connect_switch.
    destruct (Py.int (Py.strip port)); [|auto].
    destruct (dial (Py.strip ip) z); simpl; split; auto; reflexivity.
  - split; [reflexivity | exact IHs].
  - destruct (test_macro_follows cur a) as (r' & Hr' & Hf).
    rewrite Hrun in Hr'. injection Hr' as <-.
    eauto using follows_link, follows_selection.
  - eauto using follows_link, follows_selection, manual_click_follows.
  - unfold _manual_stick_grid_click. cbn [fst snd].
    split; eauto using follows_link, follows_selection, manual_send_follows.
  - unfold _manual_stick_release. cbn [fst snd].
    split; eauto using follows_link, follows_selection, manual_send_follows.
  - unfold save_clicked, _save_macro.
    destruct (Py.strip (name_var ed)); [simpl; auto|].
    destruct (Py.strip (trigger_var ed)); [simpl; auto|].
    destruct (_get_steps ed); [simpl; auto|].
    apply refresh_selection; simpl.
    + destruct (selected_index a) as [idx|];
        [destruct (Nat.ltb idx (List.length (macros a)))|]; exact IHl.
    + destruct (selected_index a) as [idx|] eqn:E;
        [destruct (Nat.ltb_spec idx (List.length (macros a)))|];
        intros j; simpl; rewrite ?E; intros [= <-];
        rewrite ?length_insert, ?length_app; simpl; lia.
  - unfold _clone_macro.
    destruct (selected_index a) as [idx|] eqn:E; [|auto].
    destruct (macros a !! idx) as [m|] eqn:Em; [|auto].
    destruct (m_name m); [|auto].
    simpl. split; [exact IHl|].
    intros j. simpl. intros [= <-]. rewrite py_insert_length.
    apply lookup_lt_Some in Em. lia.
  - split; [exact IHl|]. intros j. simpl. intros Hj.
    apply IHs in Hj. rewrite length_app. lia.
  - unfold _on_select in Hrun. destruct cur as [idx|].
    + destruct (macros a !! idx) as [m|] eqn:Em; [|discriminate].
      injection Hrun as <-. simpl. split; [exact IHl|].
      intros j. simpl. intros [= <-]. now apply lookup_lt_Some in Em.
    + injection Hrun as <-. simpl. split; [exact IHl | intros ? [=]].
  - simpl. split; [exact IHl | intros ? [=]].
  - unfold _delete_macro in Hrun. destruct cur as [idx|].
    + simpl in Hrun. destruct (macros a !! idx); [|discriminate].
      injection Hrun as <-. simpl. split; [exact IHl | intros ? [=]].
    + injection Hrun as <-. auto.
  - unfold _move_up in Hrun. simpl in Hrun.
    destruct (selected_index a) as [idx|] eqn:E; [|injection Hrun as <-; auto].
    destruct (Nat.ltb_spec 0 idx); [|injection Hrun as <-; auto].
    destruct (macros a !! idx) as [x|] eqn:Ex; [|discriminate].
    destruct (macros a !! (idx - 1)) as [y|]; [|discriminate].
    injection Hrun as <-. apply refresh_selection; simpl; [exact IHl|].
    intros j. simpl. intros [= <-]. rewrite !length_insert.
    apply lookup_lt_Some in Ex. lia.
  - unfold _move_down in Hrun. simpl in Hrun.
    destruct (selected_index a) as [idx|] eqn:E; [|injection Hrun as <-; auto].
    destruct (Nat.ltb_spec (idx + 1) (List.length (macros a)));
      [|injection Hrun as <-; auto].
    destruct (macros a !! idx) as [x|]; [|discriminate].
    destruct (macros a !! (idx + 1)) as [y|]; [|discriminate].
    injection Hrun as <-. apply refresh_selection; simpl; [exact IHl|].
    intros j. simpl. intros [= <-]. rewrite !length_insert. lia.
Qed.

(** X8: the flag and the socket agree, and the selection is a macro.  In
    every state the application gets to from its start, through any run of
    connecting, disconnecting, playing, manual controls, saving, cloning,
    importing, selecting, deleting and moving, [switch_connected] is true
    exactly when a socket is held, and the selected index, when there is
    one, is below the number of macros. *)
Theorem flag_and_selection_stay_sound (a : App) :
  reachable a -> link_consistent a /\ selection_in_range a.
Proof. apply reachable_sound. Qed.

End Connection.

Section Manual.

Lemma send_one (cmd : string) (a : App) (sk : socket) :
  switch_socket a = Some sk ->
  Py.is_ascii cmd = true ->
  writes_ok 1 sk ->
  _send_sysbot_cmd cmd a = Ok tt (played [Sent (line cmd)] 1 sk a).
Proof.
  intros Hs Hc Hok. rewrite <- (played_nil sk a Hs) at 1. now apply send_played.
Qed.

Lemma connected_true (a : App) (sk : socket) :
  switch_connected a = true -> switch_socket a = Some sk -> connected a = true.
Proof.
  intros Hc Hs. unfold connected. rewrite Hc, Hs. reflexivity.
Qed.

(** X9: in a state the application gets to, the list lookups it does not
    guard do not fail.  [_move_up] and [_move_down] return, the lookup of
    the selected macro in [_clone_macro] finds it (whatever exception
    [_clone_macro] raises, it is not [IndexError]), and the guard of the
    playback and manual controls is the connection flag alone. *)
Theorem reachable_lookups_do_not_fail (a : App) :
  reachable a ->
  (forall ed, exists ui, _move_up (a, ed) = inr ui)
  /\ (forall ed, exists ui, _move_down (a, ed) = inr ui)
  /\ (forall e a', _clone_macro a = Raise e a' -> e <> IndexError)
  /\ connected a = switch_connected a.
Proof.
  intros Hr. destruct (reachable_sound a Hr) as [Hl Hs].
  split; [|split; [|split]].
  - intros ed. unfold _move_up. simpl.
    destruct (selected_index a) as [idx|] eqn:E; [|eauto].
    destruct (Nat.ltb_spec 0 idx); [|eauto].
    pose proof (Hs idx E) as Hlt.
    destruct (lookup_lt_is_Some_2 (macros a) idx Hlt) as [x ->].
    destruct (lookup_lt_is_Some_2 (macros a) (idx - 1)) as [y ->]; [lia|].
    eauto.
  - intros ed. unfold _move_down. simpl.
    destruct (selected_index a) as [idx|] eqn:E; [|eauto].
    destruct (Nat.ltb_spec (idx + 1) (List.length (macros a))); [|eauto].
    destruct (lookup_lt_is_Some_2 (macros a) idx) as [x ->]; [lia|].
    destruct (lookup_lt_is_Some_2 (macros a) (idx + 1)) as [y ->]; [lia|].
    eauto.
  - intros e a'. unfold _clone_macro.
    destruct (selected_index a) as [idx|] eqn:E; [|discriminate].
    destruct (lookup_lt_is_Some_2 (macros a) idx (Hs idx E)) as [m ->].
    destruct (m_name m); [discriminate|]. intros [= <- _]. discriminate.
  - unfold connected. rewrite <- Hl. now destruct (switch_connected a).
Qed.

(** X10: a manual button is one click line, with the name as given.  On a
    connected application [_manual_click_button] writes [click] and the
    name, not upper-cased and with no sleep after it, and sets the label to
    [Clicked:] and the name; when the write fails the label holds the error,
    nothing is logged as written and the application still counts as
    connected. *)
Theorem manual_click_writes_one_line (btn : string) (a : App) (sk : socket) :
  switch_connected a = true ->
  switch_socket a = Some sk ->
  Py.is_ascii btn = true ->
  (writes_ok 1 sk ->
   _manual_click_button btn a
   = (played [Sent (line ("click " ++ btn))] 1 sk a,
      status_text ("Clicked: " ++ btn)))
  /\ (forall msg rest,
         pending sk = Some msg :: rest ->
         exists a',
           _manual_click_button btn a = (a', status_error (OSError msg))
           /\ wire a' = wire a /\ connected a' = true).
Proof.
  intros Hc Hs Hb. unfold _manual_click_button.
  rewrite (connected_true a sk Hc Hs). split.
  - intros Hok. rewrite (send_one _ a sk Hs); [reflexivity| |assumption].
    now rewrite is_ascii_app, Hb.
  - intros msg rest Hp. unfold _send_sysbot_cmd. rewrite Hs.
    rewrite encode_ascii_ok by (now rewrite !is_ascii_app, Hb).
    unfold sendall. rewrite Hp. eexists. split; [reflexivity|].
    split; [reflexivity|]. unfold connected. simpl. rewrite Hc.
    reflexivity.
Qed.

(** X11: the manual stick grid never sends a position out of range.
    [_manual_stick_grid_click] stores the clamped position for the stick
    clicked and leaves the other stick's as it was, connected or not; the
    stored coordinates lie in [-32767, 32767]; and on a connected
    application the one line it writes is [setStick] for that side with
    these coordinates, while without a connection nothing is written. *)
Theorem manual_grid_sends_clamped_position (x y : Z) (side : string)
    (st : ManualSticks) (a : App) :
  let r := _manual_stick_grid_click x y side st a in
  let cx := clamp_axis x in
  let cy := clamp_axis y in
  (-32767 <= cx <= 32767)%Z /\ (-32767 <= cy <= 32767)%Z
  /\ fst r = set_manual_stick side cx cy st
  /\ (connected a = false -> fst (snd r) = a)
  /\ (forall sk,
         switch_connected a = true ->
         switch_socket a = Some sk ->
         writes_ok 1 sk ->
         fst (snd r)
         = played [Sent (line ("setStick "
                               ++ (if String.eqb side "LEFT" then "LEFT" else "RIGHT")
                               ++ " " ++ Py.str cx ++ " " ++ Py.str cy))] 1 sk a).
Proof.
  intros r cx cy. subst r cx cy.
  split; [unfold clamp_axis; lia|]. split; [unfold clamp_axis; lia|].
  split; [reflexivity|]. unfold _manual_stick_grid_click, manual_stick_send.
  cbn [fst snd]. split.
  - now intros ->.
  - intros sk Hc Hs Hok. rewrite (connected_true a sk Hc Hs).
    unfold set_manual_stick. destruct (String.eqb side "LEFT"); simpl;
      (rewrite (send_one _ a sk Hs); [reflexivity| |assumption]);
      now rewrite !is_ascii_app, !is_ascii_str.
Qed.

End Manual.

(** ** Saving, selecting and the editor *)

Section MoreLibrary.

Lemma rstrip_idem (sp : ascii -> bool) (s : string) :
  Py.rstrip sp (Py.rstrip sp s) = Py.rstrip sp s.
Proof.
  induction s as [|c r IH]; [reflexivity|].
  cbn [Py.rstrip]. destruct (Py.rstrip sp r) as [|d r'] eqn:E.
  - destruct (sp c) eqn:Ec; [reflexivity|]. cbn [Py.rstrip]. now rewrite Ec.
  - change (Py.rstrip sp (String c (String d r')))
      with (match Py.rstrip sp (String d r') with
            | EmptyString => if sp c then EmptyString else String c EmptyString
            | String x y => String c (String x y)
            end).
    now rewrite IH.
Qed.

Lemma rstrip_head (sp : ascii -> bool) (c : ascii) (r : string) :
  sp c = false -> exists r', Py.rstrip sp (String c r) = String c r'.
Proof.
  intros Hc. cbn [Py.rstrip].
  destruct (Py.rstrip sp r); [rewrite Hc|]; eauto.
Qed.

Lemma lstrip_head (sp : ascii -> bool) (s : string) :
  Py.lstrip sp s = EmptyString
  \/ exists c r, Py.lstrip sp s = String c r /\ sp c = false.
Proof.
  induction s as [|c r IH]; [now left|].
  cbn [Py.lstrip]. destruct (sp c) eqn:Ec; [exact IH | right; eauto].
Qed.

(** [s.strip().strip() == s.strip()] *)
Lemma strip_idem (s : string) : Py.strip (Py.strip s) = Py.strip s.
Proof.
  unfold Py.strip.
  destruct (lstrip_head Py.isspace s) as [->|(c & r & -> & Hc)]; [reflexivity|].
  destruct (rstrip_head Py.isspace c r Hc) as [r' E].
  rewrite E. cbn [Py.lstrip]. rewrite Hc, <- E. apply rstrip_idem.
Qed.

Lemma get_by_index (l : list string) :
  map (fun i => default EmptyString (l !! i)) (seq 0 (List.length l)) = l.
Proof.
  apply list_eq. intros i. rewrite list_lookup_fmap.
  destruct (decide (i < List.length l)) as [Hi|Hi].
  - rewrite lookup_seq_lt by exact Hi. simpl.
    destruct (lookup_lt_is_Some_2 l i Hi) as [x Hx]. now rewrite Hx.
  - rewrite lookup_seq_ge by lia. simpl. symmetry.
    apply lookup_ge_None_2. lia.
Qed.

Lemma fill_from_empty (l acc : list string) :
  fold_left (fun lb s => (lb ++ [s])%list) l acc = (acc ++ l)%list.
Proof.
  revert acc. induction l as [|x l IH]; intros acc; simpl.
  - now rewrite app_nil_r.
  - now rewrite IH, <- app_assoc.
Qed.

(** What [_set_steps] puts in the list box, [_get_steps] reads back. *)
Lemma get_set_steps (l : list string) (ed : Editor) :
  _get_steps (_set_steps l ed) = l.
Proof.
  unfold _get_steps, _set_steps. simpl. rewrite fill_from_empty. simpl.
  apply get_by_index.
Qed.

(** A save that goes through, spelled out. *)
Lemma save_macro_stored (nv tv : string) (lb : list string) (a : App) :
  Py.strip nv <> EmptyString ->
  Py.strip tv <> EmptyString ->
  lb <> [] ->
  let k := fresh (dom (heap a)) in
  let mc := {| m_name := Some (Py.strip nv); m_trigger := Some (Py.strip tv);
               m_chat_command := Some (Py.strip tv); m_steps := Some k |} in
  let a1 := set_heap (<[k := lb]> (heap a)) a in
  _save_macro nv tv lb a
  = (match selected_index a with
     | Some idx =>
         if Nat.ltb idx (List.length (macros a))
         then set_macros (<[idx := mc]> (macros a)) a1
         else set_selected_index (Some (List.length (macros a)))
                (set_macros (macros a ++ [mc])%list a1)
     | None =>
         set_selected_index (Some (List.length (macros a)))
           (set_macros (macros a ++ [mc])%list a1)
     end,
     showinfo "Saved" ("Macro '" ++ Py.strip nv ++ "' saved.")).
Proof.
  intros Hn Ht Hl k mc a1. unfold _save_macro.
  destruct (Py.strip nv) as [|c1 r1]; [congruence|].
  destruct (Py.strip tv) as [|c2 r2]; [congruence|].
  destruct lb as [|s l]; [congruence|].
  rewrite length_app. simpl.
  replace (List.length (macros a) + 1 - 1) with (List.length (macros a)) by lia.
  reflexivity.
Qed.

Lemma fresh_not_in_heap (a : App) : heap a !! fresh (dom (heap a)) = None.
Proof. apply not_elem_of_dom, is_fresh. Qed.

Lemma steps_of_after_alloc (a a' : App) (lb : list string) (m : Macro) :
  heap a' = <[fresh (dom (heap a)) := lb]> (heap a) ->
  (forall l, m_steps m = Some l -> is_Some (heap a !! l)) ->
  steps_of a' m = steps_of a m.
Proof.
  intros Hh Hin. unfold steps_of. destruct (m_steps m) as [l|]; [|reflexivity].
  rewrite Hh, lookup_insert_ne; [reflexivity|].
  intros <-. destruct (Hin _ eq_refl) as [x Hx].
  rewrite fresh_not_in_heap in Hx. discriminate.
Qed.

(** X12: a save touches one macro.  A save that goes through with a
    selected macro replaces that macro and leaves the number and the
    places of the others; with no selected macro it adds the new macro
    after the others and selects it.  Either way, when the step lists of
    the stored macros are in the store, every macro stored before has the
    steps it had, and the step lists are in the store afterwards too. *)
Theorem save_touches_one_macro (nv tv : string) (lb : list string) (a : App) :
  Py.strip nv <> EmptyString ->
  Py.strip tv <> EmptyString ->
  lb <> [] ->
  let a' := fst (_save_macro nv tv lb a) in
  (forall idx, selected_index a = Some idx -> idx < List.length (macros a) ->
     List.length (macros a') = List.length (macros a)
     /\ selected_index a' = Some idx
     /\ forall j, j <> idx -> macros a' !! j = macros a !! j)
  /\ (selected_index a = None ->
      take (List.length (macros a)) (macros a') = macros a
      /\ List.length (macros a') = S (List.length (macros a))
      /\ selected_index a' = Some (List.length (macros a)))
  /\ (steps_in_store a ->
      (forall m, m ∈ macros a -> steps_of a' m = steps_of a m)
      /\ steps_in_store a').
Proof.
  intros Hn Ht Hl a'. subst a'.
  rewrite (save_macro_stored nv tv lb a Hn Ht Hl). cbn [fst].
  set (k := fresh (dom (heap a))).
  set (mc := {| m_name := Some (Py.strip nv); m_trigger := Some (Py.strip tv);
                m_chat_command := Some (Py.strip tv); m_steps := Some k |}).
  split; [|split].
  - intros idx Hsel Hlt. rewrite Hsel.
    destruct (Nat.ltb_spec idx (List.length (macros a))); [|lia]. simpl.
    split; [apply length_insert|]. split; [exact Hsel|].
    intros j Hj. now apply list_lookup_insert_ne.
  - intros Hsel. rewrite Hsel. simpl.
    split; [apply take_app_length|]. split; [|reflexivity].
    rewrite length_app. simpl. lia.
  - intros Hstore.
    assert (Hheap : heap
              match selected_index a with
              | Some idx =>
                  if Nat.ltb idx (List.length (macros a))
                  then set_macros (<[idx:=mc]> (macros a))
                         (set_heap (<[k:=lb]> (heap a)) a)
                  else set_selected_index (Some (List.length (macros a)))
                         (set_macros (macros a ++ [mc])%list
                            (set_heap (<[k:=lb]> (heap a)) a))
              | None =>
                  set_selected_index (Some (List.length (macros a)))
                    (set_macros (macros a ++ [mc])%list
                       (set_heap (<[k:=lb]> (heap a)) a))
              end = <[k := lb]> (heap a)).
    { destruct (selected_index a) as [idx|];
        [destruct (Nat.ltb idx (List.length (macros a)))|]; reflexivity. }
    split.
    + intros m Hm. apply (steps_of_after_alloc a _ lb); [exact Hheap|].
      intros l Hml. exact (Hstore m l Hm Hml).
    + intros m l Hm Hml. rewrite Hheap.
      assert (m = mc \/ m ∈ macros a) as [->|Hold].
      { destruct (selected_index a) as [idx|];
          [destruct (Nat.ltb idx (List.length (macros a)))|]; simpl in Hm.
        - apply list_elem_of_lookup in Hm as [j Hj].
          rewrite list_lookup_insert in Hj.
          destruct (decide (idx = j ∧ idx < List.length (macros a)));
            [left; congruence | right; eapply list_elem_of_lookup_2; eauto].
        - apply elem_of_app in Hm as [Hm|Hm]; [now right|].
          apply list_elem_of_singleton in Hm. now left.
        - apply elem_of_app in Hm as [Hm|Hm]; [now right|].
          apply list_elem_of_singleton in Hm. now left. }
      * simpl in Hml. injection Hml as <-. rewrite lookup_insert_eq. eauto.
      * destruct (Hstore m l Hold Hml) as [x Hx].
        destruct (decide (k = l)) as [<-|Hne];
          [rewrite lookup_insert_eq | rewrite lookup_insert_ne by exact Hne];
          eauto.
Qed.

End MoreLibrary.

Section SaveAgain.

(** X13: saving the clone leaves the original as it was.  After
    [_clone_macro] the clone is the selected macro; a save then replaces
    the clone alone: the original is still in its place with the steps it
    had, although the clone shared its step list, and the clone has the new
    name and the steps of the list box. *)
Theorem saving_the_clone_keeps_the_original (a : App) (idx : nat) (m : Macro)
    (n nv tv : string) (lb : list string) :
  selected_index a = Some idx ->
  macros a !! idx = Some m ->
  m_name m = Some n ->
  steps_in_store a ->
  Py.strip nv <> EmptyString ->
  Py.strip tv <> EmptyString ->
  lb <> [] ->
  exists a1 a2 c,
    _clone_macro a = Ok tt a1
    /\ _save_macro nv tv lb a1
       = (a2, showinfo "Saved" ("Macro '" ++ Py.strip nv ++ "' saved."))
    /\ List.length (macros a2) = S (List.length (macros a))
    /\ macros a2 !! idx = Some m
    /\ steps_of a2 m = steps_of a m
    /\ macros a2 !! (idx + 1) = Some c
    /\ m_name c = Some (Py.strip nv)
    /\ m_trigger c = Some (Py.strip tv)
    /\ steps_of a2 c = lb.
Proof.
  intros Hsel Hm Hn Hstore Hnv Htv Hlb.
  pose proof (lookup_lt_Some _ _ _ Hm) as Hlt.
  unfold _clone_macro. rewrite Hsel, Hm, Hn.
  eexists _, _, _. split; [reflexivity|].
  rewrite (save_macro_stored nv tv lb _ Hnv Htv Hlb). cbn [selected_index set_selected_index].
  cbn [macros set_macros set_selected_index].
  rewrite py_insert_length.
  destruct (Nat.ltb_spec (idx + 1) (S (List.length (macros a)))); [|lia].
  split; [reflexivity|]. cbn [macros set_macros set_heap heap set_selected_index].
  split; [now rewrite length_insert, py_insert_length|].
  split; [rewrite list_lookup_insert_ne by lia;
          rewrite py_insert_before by lia; exact Hm|].
  split.
  - unfold steps_of. cbn [heap set_macros set_heap set_selected_index].
    destruct (m_steps m) as [l|] eqn:El; [|reflexivity].
    rewrite lookup_insert_ne; [reflexivity|].
    intros E. destruct (Hstore m l) as [x Hx];
      [eapply list_elem_of_lookup_2; exact Hm | exact El |].
    rewrite <- E, fresh_not_in_heap in Hx. discriminate.
  - split; [apply list_lookup_insert_eq; rewrite py_insert_length; lia|].
    split; [reflexivity|]. split; [reflexivity|].
    unfold steps_of. cbn [m_steps heap set_macros set_heap set_selected_index].
    now rewrite lookup_insert_eq.
Qed.

(** The editor after a save that goes through: the stripped fields and
    the steps of the list box. *)
Lemma save_clicked_saved (a : App) (ed : Editor) :
  Py.strip (name_var ed) <> EmptyString ->
  Py.strip (trigger_var ed) <> EmptyString ->
  _get_steps ed <> [] ->
  exists idx mc,
    save_clicked (a, ed)
    = ((fst (_save_macro (name_var ed) (trigger_var ed) (_get_steps ed) a),
        {| name_var := Py.strip (name_var ed);
           trigger_var := Py.strip (trigger_var ed);
           steps_listbox := _get_steps ed |}),
       showinfo "Saved" ("Macro '" ++ Py.strip (name_var ed) ++ "' saved."))
    /\ selected_index (fst (_save_macro (name_var ed) (trigger_var ed) (_get_steps ed) a))
       = Some idx
    /\ idx < List.length (macros (fst (_save_macro (name_var ed) (trigger_var ed)
                                          (_get_steps ed) a)))
    /\ macros (fst (_save_macro (name_var ed) (trigger_var ed) (_get_steps ed) a)) !! idx
       = Some mc
    /\ m_name mc = Some (Py.strip (name_var ed))
    /\ m_trigger mc = Some (Py.strip (trigger_var ed))
    /\ m_chat_command mc = Some (Py.strip (trigger_var ed))
    /\ steps_of (fst (_save_macro (name_var ed) (trigger_var ed) (_get_steps ed) a)) mc
       = _get_steps ed.
Proof.
  intros Hn Ht Hl. unfold save_clicked.
  rewrite (save_macro_stored _ _ _ a Hn Ht Hl). cbn [fst].
  set (k := fresh (dom (heap a))).
  set (mc := {| m_name := Some (Py.strip (name_var ed));
                m_trigger := Some (Py.strip (trigger_var ed));
                m_chat_command := Some (Py.strip (trigger_var ed));
                m_steps := Some k |}).
  assert (Hshow : forall b e, heap b = <[k := _get_steps ed]> (heap a) ->
            show_macro b mc e
            = {| name_var := Py.strip (name_var ed);
                 trigger_var := Py.strip (trigger_var ed);
                 steps_listbox := _get_steps ed |}).
  { intros b e Hb. unfold show_macro, _set_steps, steps_of. simpl.
    rewrite Hb, lookup_insert_eq, fill_from_empty. simpl. f_equal.
    destruct (Py.strip (trigger_var ed)); [congruence | reflexivity]. }
  assert (Hsteps : forall b, heap b = <[k := _get_steps ed]> (heap a) ->
            steps_of b mc = _get_steps ed).
  { intros b Hb. unfold steps_of. simpl. now rewrite Hb, lookup_insert_eq. }
  destruct (selected_index a) as [idx|] eqn:Es;
    [destruct (Nat.ltb_spec idx (List.length (macros a)))|].
  - exists idx, mc. unfold _refresh_macro_list.
    cbn [fst snd selected_index macros set_macros set_heap set_selected_index].
    rewrite Es. rewrite list_lookup_insert_eq by assumption.
    rewrite Hshow by reflexivity.
    repeat split; auto using list_lookup_insert_eq.
    now rewrite length_insert.
  - exists (List.length (macros a)), mc. unfold _refresh_macro_list.
    cbn [fst snd selected_index macros set_macros set_heap set_selected_index].
    rewrite list_lookup_middle by reflexivity. rewrite Hshow by reflexivity.
    repeat split; auto using list_lookup_middle.
    rewrite length_app. simpl. lia.
  - exists (List.length (macros a)), mc. unfold _refresh_macro_list.
    cbn [fst snd selected_index macros set_macros set_heap set_selected_index].
    rewrite list_lookup_middle by reflexivity. rewrite Hshow by reflexivity.
    repeat split; auto using list_lookup_middle.
    rewrite length_app. simpl. lia.
Qed.

(** X14: saving twice is saving once.  When a save goes through, the
    editor then shows the name and trigger without the blanks around them
    and the same steps; a second save right after it shows the same dialog,
    leaves the editor, the selection and the number of macros as the first
    left them, and stores in the selected place a macro with the same
    name, trigger, alias and steps, every other macro staying in its
    place. *)
Theorem saving_twice_is_saving_once (a : App) (ed : Editor) (title message : string) :
  snd (save_clicked (a, ed)) = showinfo title message ->
  let ui1 := fst (save_clicked (a, ed)) in
  let r2 := save_clicked ui1 in
  name_var (snd ui1) = Py.strip (name_var ed)
  /\ trigger_var (snd ui1) = Py.strip (trigger_var ed)
  /\ _get_steps (snd ui1) = _get_steps ed
  /\ snd r2 = showinfo title message
  /\ snd (fst r2) = snd ui1
  /\ selected_index (fst (fst r2)) = selected_index (fst ui1)
  /\ List.length (macros (fst (fst r2))) = List.length (macros (fst ui1))
  /\ exists idx m1 m2,
      selected_index (fst ui1) = Some idx
      /\ macros (fst ui1) !! idx = Some m1
      /\ macros (fst (fst r2)) !! idx = Some m2
      /\ m_name m2 = m_name m1
      /\ m_trigger m2 = m_trigger m1
      /\ m_chat_command m2 = m_chat_command m1
      /\ steps_of (fst (fst r2)) m2 = steps_of (fst ui1) m1
      /\ forall j, j <> idx -> macros (fst (fst r2)) !! j = macros (fst ui1) !! j.
Proof.
  intros Hdlg.
  assert (Py.strip (name_var ed) <> EmptyString
          /\ Py.strip (trigger_var ed) <> EmptyString
          /\ _get_steps ed <> []) as (Hn & Ht & Hl).
  { unfold save_clicked, _save_macro in Hdlg.
    destruct (Py.strip (name_var ed)); [discriminate Hdlg|].
    destruct (Py.strip (trigger_var ed)); [discriminate Hdlg|].
    destruct (_get_steps ed); [discriminate Hdlg|]. repeat split; discriminate. }
  destruct (save_clicked_saved a ed Hn Ht Hl)
    as (idx & m1 & E1 & Hsel1 & Hlt1 & Hat1 & Hn1 & Ht1 & Hc1 & Hs1).
  rewrite E1 in Hdlg. cbn [snd] in Hdlg. injection Hdlg as <- <-.
  intros ui1 r2. subst r2 ui1. rewrite E1. cbn [fst snd].
  set (a1 := fst (_save_macro (name_var ed) (trigger_var ed) (_get_steps ed) a)) in *.
  set (ed1 := {| name_var := Py.strip (name_var ed);
                 trigger_var := Py.strip (trigger_var ed);
                 steps_listbox := _get_steps ed |}).
  assert (Hg : _get_steps ed1 = _get_steps ed).
  { unfold _get_steps at 1. simpl. apply get_by_index. }
  assert (Hn' : Py.strip (name_var ed1) <> EmptyString)
    by (simpl; now rewrite strip_idem).
  assert (Ht' : Py.strip (trigger_var ed1) <> EmptyString)
    by (simpl; now rewrite strip_idem).
  assert (Hl' : _get_steps ed1 <> []) by now rewrite Hg.
  destruct (save_clicked_saved a1 ed1 Hn' Ht' Hl')
    as (idx2 & m2 & E2 & Hsel2 & Hlt2 & Hat2 & Hn2 & Ht2 & Hc2 & Hs2).
  rewrite E2. cbn [fst snd].
  pose proof (save_macro_stored _ _ _ a1 Hn' Ht' Hl') as Hst.
  cbv zeta in Hst. rewrite Hsel1 in Hst.
  destruct (Nat.ltb_spec idx (List.length (macros a1))); [|lia].
  rewrite Hst in Hsel2, Hat2, Hs2 |- *.
  cbn [fst snd selected_index macros set_macros set_heap set_selected_index] in *.
  rewrite Hsel1 in Hsel2. injection Hsel2 as <-.
  simpl name_var in *. simpl trigger_var in *. rewrite !strip_idem in *.
  split; [reflexivity|]. split; [reflexivity|]. split; [exact Hg|].
  split; [reflexivity|]. split; [now rewrite Hg|].
  split; [reflexivity|]. split; [apply length_insert|].
  exists idx, m1, m2.
  rewrite list_lookup_insert_eq in Hat2 by assumption. injection Hat2 as <-.
  split; [exact Hsel1|]. split; [exact Hat1|].
  split; [now apply list_lookup_insert_eq|].
  split; [now rewrite Hn1|]. split; [now rewrite Ht1|]. split; [now rewrite Hc1|].
  split; [rewrite Hs2, Hs1; exact Hg|].
  intros j Hj. now apply list_lookup_insert_ne.
Qed.

End SaveAgain.

(** ** The macro list: deleting, moving, exporting *)

Section MacroList.

(** X15: deleting removes the selected macro and nothing else.  With the
    list box selection on a macro, [_delete_macro] takes that macro out,
    keeps the macros before it in their places and moves those after it up
    by one, clears the selection and empties the editor; the store of step
    lists is not touched. *)
Theorem delete_removes_the_selected_macro (idx : nat) (ui : App * Editor) :
  idx < List.length (macros (fst ui)) ->
  exists ui',
    _delete_macro (Some idx) ui = inr ui'
    /\ S (List.length (macros (fst ui'))) = List.length (macros (fst ui))
    /\ (forall j, j < idx -> macros (fst ui') !! j = macros (fst ui) !! j)
    /\ (forall j, idx <= j -> macros (fst ui') !! j = macros (fst ui) !! S j)
    /\ selected_index (fst ui') = None
    /\ heap (fst ui') = heap (fst ui)
    /\ name_var (snd ui') = EmptyString
    /\ trigger_var (snd ui') = EmptyString
    /\ _get_steps (snd ui') = [].
Proof.
  intros Hlt. unfold _delete_macro.
  destruct (lookup_lt_is_Some_2 _ _ Hlt) as [m ->].
  eexists. split; [reflexivity|]. simpl.
  split; [rewrite length_delete; [lia | eauto using lookup_lt_is_Some_2]|].
  split; [intros j Hj; now apply list_lookup_delete_lt|].
  split; [intros j Hj; now apply list_lookup_delete_ge|].
  repeat split.
Qed.

(** X16: moving a macro up and then down puts everything back.  With a
    selected macro that is not the first, [_move_up] swaps it with the one
    before it and keeps it selected, so the macros are the same ones in
    another order; [_move_down] right after it gives back the application
    state from before the two moves. *)
Theorem move_up_then_down_restores (a : App) (ed : Editor) (i : nat) :
  selected_index a = Some (S i) ->
  S i < List.length (macros a) ->
  exists ui1 ui2,
    _move_up (a, ed) = inr ui1
    /\ selected_index (fst ui1) = Some i
    /\ macros (fst ui1) !! i = macros a !! S i
    /\ macros (fst ui1) !! S i = macros a !! i
    /\ macros (fst ui1) ≡ₚ macros a
    /\ _move_down ui1 = inr ui2
    /\ fst ui2 = a.
Proof.
  intros Hsel Hlt.
  destruct (lookup_lt_is_Some_2 (macros a) (S i) Hlt) as [x Hx].
  destruct (lookup_lt_is_Some_2 (macros a) i) as [y Hy]; [lia|].
  unfold _move_up. cbn [fst snd]. rewrite Hsel. cbn [Nat.ltb Nat.leb].
  replace (S i - 1) with i by lia. rewrite Hx, Hy.
  set (ms1 := <[S i := y]> (<[i := x]> (macros a))).
  assert (H1i : ms1 !! i = Some x).
  { unfold ms1. rewrite list_lookup_insert_ne by lia.
    apply list_lookup_insert_eq. lia. }
  assert (H1s : ms1 !! S i = Some y).
  { unfold ms1. apply list_lookup_insert_eq. rewrite length_insert. lia. }
  assert (Hlen : List.length ms1 = List.length (macros a)).
  { unfold ms1. now rewrite !length_insert. }
  assert (Hr1 : _refresh_macro_list
                  (set_selected_index (Some i) (set_macros ms1 a), ed)
                = (set_selected_index (Some i) (set_macros ms1 a),
                   show_macro (set_selected_index (Some i) (set_macros ms1 a)) x ed)).
  { unfold _refresh_macro_list. cbn [fst snd selected_index set_selected_index
                                     macros set_macros]. now rewrite H1i. }
  rewrite Hr1. eexists _, _. split; [reflexivity|]. cbn [fst snd].
  split; [reflexivity|]. cbn [macros set_selected_index set_macros].
  split; [exact H1i|]. split; [exact H1s|].
  split; [unfold ms1; now apply Permutation_insert_swap|].
  unfold _move_down. cbn [fst snd selected_index set_selected_index macros set_macros].
  rewrite Hlen. replace (i + 1) with (S i) by lia.
  destruct (Nat.ltb_spec (S i) (List.length (macros a))); [|lia].
  rewrite H1i, H1s.
  assert (Hback : <[i := y]> (<[S i := x]> ms1) = macros a).
  { apply list_eq. intros j. unfold ms1.
    destruct (decide (j = i)) as [->|Hji].
    - rewrite list_lookup_insert_eq by (rewrite !length_insert; lia). now rewrite Hy.
    - rewrite list_lookup_insert_ne by lia.
      destruct (decide (j = S i)) as [->|Hjs].
      + rewrite list_lookup_insert_eq by (rewrite !length_insert; lia). now rewrite Hx.
      + now rewrite !list_lookup_insert_ne by lia. }
  rewrite Hback. unfold _refresh_macro_list.
  cbn [fst snd selected_index set_selected_index macros set_macros].
  rewrite Hx. split; [reflexivity|]. cbn [fst].
  clearbody ms1. clear - Hsel. destruct a. simpl in *. now subst.
Qed.

(** X17: what export writes loads with trigger and alias in step.  The
    records [_export_macros] hands to the file are the macros in order,
    each with [chat_command] set to its trigger, or to the empty string
    when it has none; loaded again by [_import_macros], every one of them
    has a trigger and a [chat_command] that are equal, and the name it had. *)
Theorem exported_records_load_in_step (path : string) (a a0 : App) (j : nat)
    (m : Macro) :
  path <> EmptyString ->
  macros a !! j = Some m ->
  exists recs m',
    fst (_export_macros path a) = Some recs
    /\ List.length recs = List.length (macros a)
    /\ macros (_import_macros recs a0) !! (List.length (macros a0) + j) = Some m'
    /\ m_name m' = m_name m
    /\ m_trigger m' = Some (default EmptyString (m_trigger m))
    /\ m_chat_command m' = m_trigger m'.
Proof.
  intros Hp Hj. unfold _export_macros.
  destruct (macros a) as [|m0 ms] eqn:Ems; [discriminate Hj|].
  destruct path as [|c p]; [congruence|]. cbn [fst].
  exists (map export_record (m0 :: ms)), (import_record (export_record m)).
  split; [reflexivity|]. split; [apply length_map|].
  split.
  - unfold _import_macros. cbn [macros set_macros].
    rewrite lookup_app_r by lia.
    replace (List.length (macros a0) + j - List.length (macros a0)) with j by lia.
    now rewrite !list_lookup_fmap, Hj.
  - unfold import_record, export_record. simpl.
    destruct (m_trigger m); simpl; auto.
Qed.

End MacroList.

(** ** The step list box *)

Section StepList.

Lemma split_at_pair (lb : list string) (i : nat) :
  S i < List.length lb ->
  exists l1 y x l2, lb = (l1 ++ y :: x :: l2)%list /\ List.length l1 = i.
Proof.
  intros Hlt. exists (take i lb).
  pose proof (take_drop i lb) as E.
  assert (List.length (drop i lb) = List.length lb - i) as Hd by apply length_drop.
  destruct (drop i lb) as [|y [|x l2]]; simpl in Hd; try lia.
  exists y, x, l2. split; [now symmetry|]. rewrite length_take. lia.
Qed.

Lemma delete_second (l1 l2 : list string) (y x : string) :
  delete (S (List.length l1)) (l1 ++ y :: x :: l2)%list = (l1 ++ y :: l2)%list.
Proof. induction l1 as [|z l1 IH]; simpl; [reflexivity | now rewrite IH]. Qed.

Lemma py_insert_middle (l1 l2 : list string) (x : string) :
  py_insert (List.length l1) x (l1 ++ l2)%list = (l1 ++ x :: l2)%list.
Proof. unfold py_insert. now rewrite take_app_length, drop_app_length. Qed.

(** X18: moving a step up and then down puts the steps back.  With a
    selected step that is not the first, [_move_step_up] swaps it with the
    step before it and selects it in its new place; the steps are the same
    ones in another order; and [_move_step_down] on that selection gives
    back the list and the selection from before. *)
Theorem step_up_then_down_restores (lb : list string) (i : nat) :
  S i < List.length lb ->
  let r1 := _move_step_up (Some (S i)) lb in
  snd r1 = Some i
  /\ fst r1 !! i = lb !! S i
  /\ fst r1 !! S i = lb !! i
  /\ fst r1 ≡ₚ lb
  /\ _move_step_down (snd r1) (fst r1) = (lb, Some (S i)).
Proof.
  intros Hlt. destruct (split_at_pair lb i Hlt) as (l1 & y & x & l2 & -> & <-).
  assert (Hx : (l1 ++ y :: x :: l2)%list !! S (List.length l1) = Some x).
  { change (l1 ++ y :: x :: l2)%list with (l1 ++ [y] ++ x :: l2)%list.
    rewrite app_assoc. apply list_lookup_middle. rewrite length_app. simpl. lia. }
  assert (Hy : (l1 ++ y :: x :: l2)%list !! List.length l1 = Some y)
    by now apply list_lookup_middle.
  unfold _move_step_up. cbn [fst snd]. rewrite Hx. cbn [default from_option id].
  replace (S (List.length l1) - 1) with (List.length l1) by lia.
  rewrite delete_second, py_insert_middle.
  assert (Hx1 : (l1 ++ x :: y :: l2)%list !! List.length l1 = Some x)
    by now apply list_lookup_middle.
  assert (Hy1 : (l1 ++ x :: y :: l2)%list !! S (List.length l1) = Some y).
  { change (l1 ++ x :: y :: l2)%list with (l1 ++ [x] ++ y :: l2)%list.
    rewrite app_assoc. apply list_lookup_middle. rewrite length_app. simpl. lia. }
  split; [reflexivity|]. split; [congruence|].
  split; [congruence|].
  split; [apply Permutation_app_head, perm_swap|].
  unfold _move_step_down.
  destruct (Nat.eqb_spec (List.length l1 + 1) (List.length (l1 ++ x :: y :: l2)%list))
    as [E|_]; [rewrite length_app in E; simpl in E; lia|].
  rewrite Hx1. cbn [default from_option id]. rewrite delete_middle.
  replace (List.length l1 + 1) with (List.length (l1 ++ [y])%list)
    by (rewrite length_app; reflexivity).
  change (l1 ++ y :: l2)%list with (l1 ++ [y] ++ l2)%list.
  rewrite app_assoc, py_insert_middle, <- app_assoc.
  rewrite length_app. simpl. now replace (List.length l1 + 1) with (S (List.length l1)) by lia.
Qed.

(** X19: a step added at the selection is taken out again by a delete.
    [_insert_step] puts a step that is not empty at the selected index, or
    at the end when nothing is selected, moving the later steps down by
    one, and [_delete_step] at that index gives the list back; the empty
    step is not inserted. *)
Theorem insert_then_delete_restores (step : string) (idx : nat) (lb : list string) :
  step <> EmptyString ->
  idx <= List.length lb ->
  _insert_step step (Some idx) lb !! idx = Some step
  /\ List.length (_insert_step step (Some idx) lb) = S (List.length lb)
  /\ (forall j, j < idx -> _insert_step step (Some idx) lb !! j = lb !! j)
  /\ (forall j, idx <= j -> _insert_step step (Some idx) lb !! S j = lb !! j)
  /\ _delete_step (Some idx) (_insert_step step (Some idx) lb) = lb
  /\ _insert_step step None lb = (lb ++ [step])%list
  /\ (forall sel, _insert_step EmptyString sel lb = lb).
Proof.
  intros Hs Hidx. unfold _insert_step, _delete_step.
  destruct step as [|c r]; [congruence|]. cbn [default from_option id].
  split; [now apply py_insert_at|]. split; [apply py_insert_length|].
  split; [intros j Hj; now apply py_insert_before|].
  assert (Hlen : List.length (take idx lb) = idx) by (rewrite length_take; lia).
  split.
  - intros j Hj. unfold py_insert.
    rewrite lookup_app_r by (rewrite Hlen; lia). rewrite Hlen.
    replace (S j - idx) with (S (j - idx)) by lia. simpl.
    rewrite lookup_drop. f_equal. lia.
  - split.
    + unfold py_insert. rewrite <- Hlen at 1. rewrite delete_middle.
      apply take_drop.
    + split; [|reflexivity].
      unfold py_insert. now rewrite take_ge, drop_ge by lia.
Qed.

(** X20: an edit replaces the selected step and no other.  With a text
    that is not empty [_edit_step] leaves the list as long as it was, with
    the new text at the selected index and every other step in its place;
    a cancelled dialog or an empty text leaves the list as it is. *)
Theorem edit_replaces_one_step (idx : nat) (new : string) (lb : list string) :
  idx < List.length lb ->
  new <> EmptyString ->
  _edit_step (Some idx) (Some new) lb = <[idx := new]> lb
  /\ _edit_step (Some idx) None lb = lb
  /\ _edit_step (Some idx) (Some EmptyString) lb = lb.
Proof.
  intros Hlt Hn. unfold _edit_step.
  destruct new as [|c r]; [congruence|].
  split; [|split; reflexivity].
  rewrite insert_take_drop by exact Hlt. rewrite delete_take_drop.
  assert (Hlen : List.length (take idx lb) = idx) by (rewrite length_take; lia).
  pose proof (py_insert_middle (take idx lb) (drop (S idx) lb) (String c r)) as H.
  now rewrite Hlen in H.
Qed.

End StepList.

(** ** The added statements at work *)

Section MoreExamples.

Lemma hold_and_release_example :
  let steps := ["Hold:ZL"; "Release:ZL"] in
  let a := jump_app steps [] in
  iteration steps 0 a = Ok 1 (played [Sent (line "press ZL")] 1 idle a)
  /\ iteration steps 1 a = Ok 2 (played [Sent (line "release ZL")] 1 idle a).
Proof.
  split.
  - apply (proj1 (hold_and_release_do_not_settle
                    ["Hold:ZL"; "Release:ZL"] 0 (jump_app ["Hold:ZL"; "Release:ZL"] [])
                    idle eq_refl "ZL"
                    ltac:(simpl; auto 10)
                    ltac:(unfold writes_ok; simpl; constructor))).
    reflexivity.
  - apply (proj2 (hold_and_release_do_not_settle
                    ["Hold:ZL"; "Release:ZL"] 1 (jump_app ["Hold:ZL"; "Release:ZL"] [])
                    idle eq_refl "ZL"
                    ltac:(simpl; auto 10)
                    ltac:(unfold writes_ok; simpl; constructor))).
    reflexivity.
Defined.

Lemma upper_case_example :
  let steps := ["Button:turbo"] in
  let a := jump_app steps [] in
  iteration steps 0 a
  = Ok 1 (played [Sent (line "click TURBO"); Slept 100] 1 idle a).
Proof.
  apply (tap_sends_the_name_in_upper_case
           ["Button:turbo"] 0 (jump_app ["Button:turbo"] []) idle eq_refl "turbo").
  - reflexivity.
  - reflexivity.
  - reflexivity.
  - unfold writes_ok. simpl. constructor.
Defined.

Lemma bad_wait_example :
  let steps := ["Button:A"; "Wait:soon"] in
  let a := jump_app steps [] in
  iteration steps 0 a
  = Raise (ValueError_int "soon") (played [Sent (line "press A")] 1 idle a)
  /\ iteration ["Button:A"; "Wait:-5"] 0 a
     = Raise ValueError_sleep (played [Sent (line "press A")] 1 idle a)
  /\ iteration ["Button:A"; "Wait:9223372036855"] 0 a
     = Raise OverflowError (played [Sent (line "press A")] 1 idle a).
Proof.
  split; [|split].
  - apply (proj1 (bad_wait_leaves_the_button_pressed
                    ["Button:A"; "Wait:soon"] 0 (jump_app ["Button:A"; "Wait:soon"] [])
                    idle eq_refl "A" "soon" eq_refl
                    ltac:(simpl; auto) eq_refl
                    ltac:(unfold writes_ok; simpl; constructor))).
    reflexivity.
  - apply (proj1 (proj2 (bad_wait_leaves_the_button_pressed
                    ["Button:A"; "Wait:-5"] 0 (jump_app ["Button:A"; "Wait:soon"] [])
                    idle eq_refl "A" "-5" eq_refl
                    ltac:(simpl; auto) eq_refl
                    ltac:(unfold writes_ok; simpl; constructor))) (-5)%Z).
    + reflexivity.
    + lia.
  - apply (proj2 (proj2 (bad_wait_leaves_the_button_pressed
                    ["Button:A"; "Wait:9223372036855"] 0
                    (jump_app ["Button:A"; "Wait:soon"] [])
                    idle eq_refl "A" "9223372036855" eq_refl
                    ltac:(simpl; auto) eq_refl
                    ltac:(unfold writes_ok; simpl; constructor)))
             9223372036855%Z).
    + reflexivity.
    + reflexivity.
Defined.

Lemma editor_stick_example :
  let a := jump_app ["&-120,32767"] [] in
  _add_step (PanelStickMove "RIGHT" (-120) 32767) = Some "&-120,32767"
  /\ iteration ["&-120,32767"] 0 a
     = Ok 1 (played [Sent (line "setStick RIGHT -120 32767"); Slept 100] 1 idle a).
Proof.
  split; [reflexivity|].
  apply (editor_stick_step_plays_back
           ["&-120,32767"] 0 (jump_app ["&-120,32767"] []) idle eq_refl
           "RIGHT" "&-120,32767" (-120)%Z 32767%Z).
  - reflexivity.
  - reflexivity.
  - unfold writes_ok. simpl. constructor.
Defined.


Lemma reachable_example :
  let a := fst (_connect_switch "192.168.1.100 " "6000"
                  (fun _ _ => inr idle) started) in
  link_consistent a /\ selection_in_range a.
Proof.
  apply flag_and_selection_stay_sound.
  apply reach_connect. apply reach_init; reflexivity.
Defined.

(** Three records loaded and the second one, which has no name, selected:
    both moves swap two macros, and the clone fails on the missing name,
    not on the lookup. *)
Lemma reachable_lookups_example :
  let a := set_selected_index (Some 1)
             (_import_macros [both_fields; nameless; alias_only] started) in
  (exists ui, _move_up (a, dash_editor) = inr ui
              /\ m_name <$> macros (fst ui) = [None; Some "Dash"; Some "Dash"]
              /\ selected_index (fst ui) = Some 0)
  /\ (exists ui, _move_down (a, dash_editor) = inr ui
                 /\ m_name <$> macros (fst ui) = [Some "Dash"; Some "Dash"; None]
                 /\ selected_index (fst ui) = Some 2)
  /\ _clone_macro a = Raise (KeyError "name") a
  /\ (forall ed, exists ui, _move_up (a, ed) = inr ui)
  /\ (forall ed, exists ui, _move_down (a, ed) = inr ui)
  /\ (forall e a', _clone_macro a = Raise e a' -> e <> IndexError)
  /\ connected a = switch_connected a.
Proof.
  intros a.
  split; [eexists; repeat split; vm_compute; reflexivity|].
  split; [eexists; repeat split; vm_compute; reflexivity|].
  split; [reflexivity|].
  apply reachable_lookups_do_not_fail.
  apply (reach_select (Some 1) dash_editor
           (_import_macros [both_fields; nameless; alias_only] started)
           (a, show_macro (_import_macros [both_fields; nameless; alias_only] started)
                 nameless dash_editor)).
  - apply reach_import. apply reach_init; reflexivity.
  - reflexivity.
Defined.

Lemma manual_click_example :
  let a := jump_app ["Button:B"] [] in
  _manual_click_button "HOME" a
  = (played [Sent (line "click HOME")] 1 idle a, status_text "Clicked: HOME").
Proof.
  apply (proj1 (manual_click_writes_one_line "HOME" (jump_app ["Button:B"] []) idle
                  eq_refl eq_refl eq_refl)).
  unfold writes_ok. simpl. constructor.
Defined.

Lemma manual_grid_example :
  let a := jump_app ["Button:B"] [] in
  let st := {| manual_stick_x_left := 0; manual_stick_y_left := 0;
               manual_stick_x_right := 7; manual_stick_y_right := 8 |} in
  fst (snd (_manual_stick_grid_click 40000 (-99999) "LEFT" st a))
  = played [Sent (line "setStick LEFT 32767 -32767")] 1 idle a.
Proof.
  intros a st.
  destruct (manual_grid_sends_clamped_position 40000 (-99999) "LEFT" st a)
    as (_ & _ & _ & _ & H).
  apply (H idle); [reflexivity | reflexivity |].
  unfold writes_ok. simpl. constructor.
Defined.

Lemma jump_steps_in_store : steps_in_store (jump_app ["Button:B"] []).
Proof.
  intros m l Hm Hl. apply list_elem_of_singleton in Hm. subst m.
  injection Hl as <-. eexists. reflexivity.
Defined.

Lemma save_touches_example :
  let a := jump_app ["Button:B"] [] in
  let a' := fst (_save_macro "Dash" "!dash" ["Button:A"] a) in
  List.length (macros a') = 1
  /\ selected_index a' = Some 0
  /\ steps_in_store a'.
Proof.
  intros a a'.
  destruct (save_touches_one_macro "Dash" "!dash" ["Button:A"] a)
    as (Hsel & _ & Hstore); [discriminate | discriminate | discriminate |].
  destruct (Hsel 0 eq_refl) as (Hlen & Hidx & _); [simpl; lia|].
  destruct (Hstore jump_steps_in_store) as [_ Hst].
  repeat split; assumption.
Defined.

Lemma saving_the_clone_example :
  let a := jump_app ["Button:B"] [] in
  exists a1 a2 c,
    _clone_macro a = Ok tt a1
    /\ _save_macro "Hop" "!hop" ["Button:A"] a1
       = (a2, showinfo "Saved" "Macro 'Hop' saved.")
    /\ (exists m, macros a2 !! 0 = Some m /\ steps_of a2 m = ["Button:B"])
    /\ macros a2 !! 1 = Some c
    /\ steps_of a2 c = ["Button:A"].
Proof.
  intros a.
  destruct (saving_the_clone_keeps_the_original a 0
              {| m_name := Some "Jump"; m_trigger := Some "!jump";
                 m_chat_command := None; m_steps := Some 0 |}
              "Jump" "Hop" "!hop" ["Button:A"]
              eq_refl eq_refl eq_refl jump_steps_in_store)
    as (a1 & a2 & c & H1 & H2 & _ & H3 & H4 & H5 & _ & _ & H6);
    [discriminate | discriminate | discriminate |].
  exists a1, a2, c. split; [exact H1|]. split; [exact H2|].
  split; [eexists; split; [exact H3 | exact H4]|].
  split; assumption.
Defined.

Lemma saving_twice_example :
  let ui1 := fst (save_clicked (started, dash_editor)) in
  name_var (snd ui1) = "Dash"
  /\ snd (save_clicked ui1) = showinfo "Saved" "Macro 'Dash' saved."
  /\ snd (fst (save_clicked ui1)) = snd ui1
  /\ List.length (macros (fst (fst (save_clicked ui1)))) = 1.
Proof.
  intros ui1.
  destruct (saving_twice_is_saving_once started dash_editor
              "Saved" "Macro 'Dash' saved." eq_refl)
    as (Hn & _ & _ & Hd & He & _ & Hl & _).
  split; [exact Hn|]. split; [exact Hd|]. split; [exact He|].
  etransitivity; [exact Hl | reflexivity].
Defined.

Lemma delete_example :
  exists ui',
    _delete_macro (Some 1) (trio, dash_editor) = inr ui'
    /\ List.length (macros (fst ui')) = 2
    /\ macros (fst ui') !! 1 = macros trio !! 2
    /\ selected_index (fst ui') = None
    /\ name_var (snd ui') = EmptyString.
Proof.
  destruct (delete_removes_the_selected_macro 1 (trio, dash_editor))
    as (ui' & H1 & H2 & _ & H3 & H4 & _ & H5 & _); [simpl; lia|].
  exists ui'. split; [exact H1|]. split; [simpl in H2; lia|].
  split; [apply (H3 1); lia|]. split; assumption.
Defined.

Lemma move_example :
  exists ui1 ui2,
    _move_up (trio, dash_editor) = inr ui1
    /\ selected_index (fst ui1) = Some 0
    /\ macros (fst ui1) !! 0 = macros trio !! 1
    /\ _move_down ui1 = inr ui2
    /\ fst ui2 = trio.
Proof.
  destruct (move_up_then_down_restores trio dash_editor 0 eq_refl)
    as (ui1 & ui2 & H1 & H2 & H3 & _ & _ & H4 & H5); [simpl; lia|].
  exists ui1, ui2. repeat split; assumption.
Defined.

Lemma export_example :
  exists recs m',
    fst (_export_macros "macros.json" trio) = Some recs
    /\ List.length recs = 3
    /\ macros (_import_macros recs started) !! 2 = Some m'
    /\ m_name m' = Some "Jump"
    /\ m_trigger m' = Some EmptyString
    /\ m_chat_command m' = Some EmptyString.
Proof.
  destruct (exported_records_load_in_step "macros.json" trio started 2
              {| m_name := Some "Jump"; m_trigger := None;
                 m_chat_command := Some "!jump"; m_steps := None |})
    as (recs & m' & H1 & H2 & H3 & H4 & H5 & H6); [discriminate | reflexivity |].
  exists recs, m'. rewrite H6, H5 in *. repeat split; assumption.
Defined.

Lemma step_move_example :
  let lb := ["Button:A"; "Wait:250"; "Hold:B"] in
  _move_step_up (Some 2) lb = (["Button:A"; "Hold:B"; "Wait:250"], Some 1)
  /\ _move_step_down (Some 1) ["Button:A"; "Hold:B"; "Wait:250"] = (lb, Some 2).
Proof.
  intros lb.
  destruct (step_up_then_down_restores lb 1) as (_ & _ & _ & _ & H);
    [simpl; lia|].
  split; [reflexivity | exact H].
Defined.

Lemma insert_example :
  let lb := ["Button:A"; "Hold:B"] in
  _insert_step "Wait:250" (Some 1) lb !! 1 = Some "Wait:250"
  /\ _delete_step (Some 1) (_insert_step "Wait:250" (Some 1) lb) = lb
  /\ _insert_step "Wait:250" None lb = ["Button:A"; "Hold:B"; "Wait:250"].
Proof.
  intros lb.
  destruct (insert_then_delete_restores "Wait:250" 1 lb)
    as (H1 & _ & _ & _ & H2 & H3 & _); [discriminate | simpl; lia |].
  repeat split; assumption.
Defined.

Lemma edit_example :
  _edit_step (Some 1) (Some "Wait:500") ["Button:A"; "Wait:250"]
  = ["Button:A"; "Wait:500"].
Proof.
  destruct (edit_replaces_one_step 1 "Wait:500" ["Button:A"; "Wait:250"])
    as (H & _); [simpl; lia | discriminate |].
  exact H.
Defined.

End MoreExamples.

(** ** Two more compositions *)

Section Compositions.

Lemma loop_over_skipped (fuel : nat) :
  forall steps i a,
    Forall (fun step => skipped step = true) steps ->
    List.length steps - i <= fuel ->
    loop fuel steps i a = Some (Ok tt a).
Proof.
  induction fuel as [|fuel IH]; intros steps i a Hall Hf; simpl;
    destruct (Nat.ltb_spec i (List.length steps)) as [Hlt|Hge];
    try reflexivity; try lia.
  destruct (lookup_lt_is_Some_2 steps i Hlt) as [step Hstep].
  rewrite (skipped_iteration steps i a step Hstep).
  - apply IH; [exact Hall | lia].
  - rewrite Forall_forall in Hall. apply Hall.
    eapply list_elem_of_lookup_2. exact Hstep.
Qed.

(** X21: a macro of unknown steps is reported as sent.  On a connected
    application, when every step of the selected macro is a token the loop
    has no branch for, or a stick token without exactly two fields,
    [_test_macro] writes nothing, sleeps nothing, and still sets the label
    to [Macro sent!]. *)
Theorem unknown_macro_is_reported_sent (a : App) (idx : nat) (macro : Macro) :
  switch_connected a = true ->
  is_Some (switch_socket a) ->
  macros a !! idx = Some macro ->
  steps_of a macro <> [] ->
  Forall (fun step => skipped step = true) (steps_of a macro) ->
  _test_macro (Some idx) a
  = Some (Ok tt (set_test_status (status_text "Macro sent!") a)).
Proof.
  intros Hc Hs Hm Hne Hall. unfold _test_macro.
  rewrite Hc, Hm, (bool_decide_eq_true_2 _ Hs). simpl.
  destruct (steps_of a macro) as [|s l] eqn:E; [congruence|].
  rewrite loop_over_skipped; [reflexivity | exact Hall | lia].
Qed.

(** X22: a loaded macro shows its alias when it has no trigger of its
    own.  Selecting a record that [_import_macros] has just added puts its
    name in the name field, its steps in the list box and, in the trigger
    field, its trigger when that is there and not empty, else its
    [chat_command]. *)
Theorem loaded_macro_shows_its_alias (data : list Macro) (a : App) (ed : Editor)
    (j : nat) (m : Macro) :
  data !! j = Some m ->
  let a' := _import_macros data a in
  exists ui',
    _on_select (Some (List.length (macros a) + j)) (a', ed) = inr ui'
    /\ selected_index (fst ui') = Some (List.length (macros a) + j)
    /\ name_var (snd ui') = default EmptyString (m_name m)
    /\ trigger_var (snd ui')
       = py_or (default EmptyString (m_trigger m))
               (default EmptyString (m_chat_command m))
    /\ _get_steps (snd ui') = steps_of a m.
Proof.
  intros Hj a'. subst a'. unfold _on_select, _import_macros.
  cbn [macros set_macros]. rewrite lookup_app_r by lia.
  replace (List.length (macros a) + j - List.length (macros a)) with j by lia.
  rewrite list_lookup_fmap, Hj. simpl.
  eexists. split; [reflexivity|]. cbn [fst snd].
  split; [reflexivity|].
  unfold show_macro. rewrite get_set_steps. cbn [name_var trigger_var _set_steps].
  unfold import_record, steps_of.
  destruct (m_chat_command m) as [c|] eqn:Ec, (m_trigger m) as [t|] eqn:Et; simpl;
    rewrite ?Ec, ?Et; simpl; repeat split; try reflexivity.
  now destruct c.
Qed.

End Compositions.

Section CompositionExamples.

Lemma unknown_macro_example :
  let a := jump_app ["jump"; "%1,2,3"; "Stick:9"] [] in
  _test_macro (Some 0) a
  = Some (Ok tt (set_test_status (status_text "Macro sent!") a)).
Proof.
  intros a.
  apply (unknown_macro_is_reported_sent a 0
           {| m_name := Some "Jump"; m_trigger := Some "!jump";
              m_chat_command := None; m_steps := Some 0 |}).
  - reflexivity.
  - eexists. reflexivity.
  - reflexivity.
  - discriminate.
  - repeat constructor.
Defined.

Lemma loaded_macro_example :
  exists ui',
    _on_select (Some 0) (_import_macros [alias_only] started, dash_editor) = inr ui'
    /\ name_var (snd ui') = "Dash"
    /\ trigger_var (snd ui') = "!run".
Proof.
  destruct (loaded_macro_shows_its_alias [alias_only] started dash_editor 0
              alias_only eq_refl)
    as (ui' & H1 & _ & H2 & H3 & _).
  exists ui'. repeat split; assumption.
Defined.

End CompositionExamples.
